(** * pot-js: the supervision and control-plane core

    A shallow embedding of
    - [src/monitor/MasterMonitor.js]  (the orchestrator: spawn, scale, state,
      restart, shutDown and the exit handler),
    - [src/utils/SocketsHelpers.js]   (control-channel dispatch, socket probes),
    - the discovery module            (getAll / getByName / getByKey and the
      [Instance] remote handle),
    together with the properties the specification states about them.

    JavaScript objects are finite maps from property names to values, arrays
    are lists, object identity is a reference into an explicit store, and an
    [async] function is a small machine whose program points are its [await]s:
    the code between two awaits runs atomically (one event loop), and the
    environment decides in which order awaited promises settle and whether
    they resolve or reject. *)

From Stdlib Require Import Ascii.
From Stdlib Require DecimalString.
From stdpp Require Import base numbers list strings gmap sets sorting relations.

Set Warnings "-register-all".
Set Default Proof Using "Type".
Local Open Scope Z_scope.

(** ** JavaScript values *)

Module JS.

Inductive Value : Type :=
| VUndefined
| VNull
| VBool (b : bool)
| VNum (z : Z)
| VStr (s : string)
| VArr (l : list Value)
| VObj (o : gmap string Value).

(** An object literal is a finite map; a property that is not there reads as
    [undefined]. *)
Abbreviation Obj := (gmap string Value).

Definition get (o : Obj) (k : string) : Value := default VUndefined (o !! k).

(** ToBoolean. Numbers are integers here, so there is no NaN. *)
Definition truthy (v : Value) : bool :=
  match v with
  | VUndefined | VNull => false
  | VBool b => b
  | VNum z => negb (z =? 0)
  | VStr s => negb (String.eqb s "")
  | VArr _ | VObj _ => true
  end.

(** [a === b] on the primitives the sources compare. *)
Definition strict_eq (a b : Value) : bool :=
  match a, b with
  | VUndefined, VUndefined | VNull, VNull => true
  | VBool x, VBool y => Bool.eqb x y
  | VNum x, VNum y => x =? y
  | VStr x, VStr y => String.eqb x y
  | _, _ => false
  end.

(** The characters of a string, as the values its iterator yields. *)
Fixpoint characters (s : string) : list Value :=
  match s with
  | EmptyString => []
  | String c rest => VStr (String c "") :: characters rest
  end.

(** The property name of an array index. *)
Definition index_key (i : nat) : string :=
  DecimalString.NilZero.string_of_uint (Nat.to_uint i).

Definition indexed (l : list Value) : Obj :=
  list_to_map (imap (λ i v, (index_key i, v)) l).

(** The own enumerable properties of a value: those of an object, the
    elements of an array and the characters of a string under their indices;
    nothing for the other primitives. *)
Definition own_properties (v : Value) : Obj :=
  match v with
  | VObj o => o
  | VArr l => indexed l
  | VStr s => indexed (characters s)
  | _ => ∅
  end.

(** [Object.assign(target, source)]: every own property of [source] is written
    over [target]. *)
Definition Object_assign (target : Obj) (source : Value) : Obj :=
  own_properties source ∪ target.

(** [Math.max(...numbers)] for a non-empty argument list; every call site
    passes at least one number (the source guards the empty case with [[0]]). *)
Definition Math_max (numbers : list Z) : Z :=
  match numbers with
  | [] => 0
  | n :: rest => foldl Z.max n rest
  end.


(** [array.indexOf(x)]: the first index holding [x], or [-1]. *)
Fixpoint indexOf (x : nat) (l : list nat) : Z :=
  match l with
  | [] => -1
  | y :: l' =>
      if Nat.eqb y x then 0
      else let i := indexOf x l' in if i <? 0 then -1 else i + 1
  end.

(** [array.splice(index, 1)]: a negative [index] counts from the end, so
    [splice(-1, 1)] removes the last element. *)
Definition splice1 {A} (index : Z) (l : list A) : list A :=
  let len := Z.of_nat (length l) in
  let i := if index <? 0 then Z.max (len + index) 0 else Z.min index len in
  delete (Z.to_nat i) l.

End JS.
Import JS.

(** ** Paths ([path.join] of Node, POSIX flavour) *)

Module Path.

(** The segments of a path, split at every separator. *)
Fixpoint segments (acc : string) (p : string) : list string :=
  match p with
  | EmptyString => [acc]
  | String c rest =>
      if Ascii.eqb c "/"%char then acc :: segments "" rest
      else segments (acc +:+ String c "") rest
  end.

(** One segment of [normalizeString]: an empty segment and [.] are dropped;
    [..] removes the segment before it, and stays when there is none to
    remove (or only [..] before it) and the path is relative. *)
Definition normalize_step (allowAboveRoot : bool) (res : list string)
    (seg : string) : list string :=
  if String.eqb seg "" || String.eqb seg "." then res
  else if String.eqb seg ".." then
    match last res with
    | Some l =>
        if String.eqb l ".."
        then (if allowAboveRoot then res ++ [".."] else res)
        else removelast res
    | None => if allowAboveRoot then [".."] else []
    end
  else res ++ [seg].

Definition is_absolute (p : string) : bool :=
  match p with
  | String c _ => Ascii.eqb c "/"%char
  | EmptyString => false
  end.

Fixpoint trailing_separator (p : string) : bool :=
  match p with
  | EmptyString => false
  | String c EmptyString => Ascii.eqb c "/"%char
  | String _ rest => trailing_separator rest
  end.

(** [path.normalize(path)]. *)
Definition normalize (path : string) : string :=
  if String.eqb path "" then "."
  else
    let isAbsolute := is_absolute path in
    let segs := foldl (normalize_step (negb isAbsolute)) [] (segments "" path) in
    match segs with
    | [] => if isAbsolute then "/"
            else if trailing_separator path then "./" else "."
    | _ => (if isAbsolute then "/" else "")
           +:+ String.concat "/" segs
           +:+ (if trailing_separator path then "/" else "")
    end.

(** [path.join(a, b)]: the non-empty arguments joined by a separator, then
    normalised. *)
Definition join (a b : string) : string :=
  let joined := if String.eqb a "" then b
                else if String.eqb b "" then a
                else a +:+ "/" +:+ b in
  if String.eqb joined "" then "." else normalize joined.

End Path.

(** ** Errors and promise outcomes *)

Inductive ErrorKind := TypeError | RangeError | OtherError.

Record Error := mkError { err_kind : ErrorKind; err_message : string }.

(** How an awaited promise settles. *)
Inductive Outcome :=
| Resolved
| Rejected (err : Error).

(** ** Worker Monitor *)

Inductive Status := starting | running | sleeping | crashed | stopped.

Inductive EventType :=
| SPAWN | START | STOP | CRASH | SLEEP | EXIT | RESTART | STDOUT | STDERR | WARN.

Record CrashState := mkCrashState {
  status : Status;
  crashes : nat;
  lastExitCode : option Z;
  lastSignal : option string;
}.

(** One [WorkerMonitor] object. [instanceNum] is [undefined] until the
    orchestrator's START handler assigns it. *)
Record WorkerMonitor := mkWorker {
  instanceNum : option Z;
  data : Obj;
  crashState : CrashState;
  childPid : option Z;
  maxRestarts : nat;
  stopRequested : bool;
  crashLoop : bool;
  launches : nat;
}.

Definition set_instanceNum (n : Z) (w : WorkerMonitor) : WorkerMonitor :=
  mkWorker (Some n) (data w) (crashState w) (childPid w) (maxRestarts w)
           (stopRequested w) (crashLoop w) (launches w).

Definition set_data (d : Obj) (w : WorkerMonitor) : WorkerMonitor :=
  mkWorker (instanceNum w) d (crashState w) (childPid w) (maxRestarts w)
           (stopRequested w) (crashLoop w) (launches w).

Definition set_life (cs : CrashState) (pid : option Z) (stop loop : bool)
    (n : nat) (w : WorkerMonitor) : WorkerMonitor :=
  mkWorker (instanceNum w) (data w) cs pid (maxRestarts w) stop loop n.

(** ** Worker lifecycle: the crash/respawn state machine *)

Module WorkerLifecycle.

(** Modelled from the spec: [src/monitor/WorkerMonitor.js] is missing from the
    sources; a new worker is built from the shared template: its own [data]
    bag, no instance number, no child, no crash yet. *)
Definition create (template : Obj) (budget : nat) : WorkerMonitor :=
  mkWorker None template (mkCrashState starting 0 None None) None budget
           false false 0.

(** Modelled from the spec: [WorkerMonitor.start()] is missing from the
    sources; it spawns the child process and emits SPAWN immediately. *)
Definition start (pid : Z) (w : WorkerMonitor) : WorkerMonitor * list EventType :=
  (set_life (mkCrashState starting (crashes (crashState w))
                          (lastExitCode (crashState w)) (lastSignal (crashState w)))
            (Some pid) false (crashLoop w) (S (launches w)) w,
   [SPAWN]).

(** Modelled from the spec: the START transition of the missing
    [WorkerMonitor]: the process is confirmed live, the worker is [running]. *)
Definition confirmLive (w : WorkerMonitor) : WorkerMonitor * list EventType :=
  (set_life (mkCrashState running (crashes (crashState w))
                          (lastExitCode (crashState w)) (lastSignal (crashState w)))
            (childPid w) (stopRequested w) (crashLoop w) (launches w) w,
   [START]).

(** Modelled from the spec: the exit handler of the missing [WorkerMonitor].
    An exit after an explicit [stop()] is expected and counts nothing. An
    unexpected exit increments [crashes]; an exit before the minimum uptime
    raises the crash-loop signal; when the respawns already made have used up
    [maxRestarts] (the counter, after the increment, is above it) the worker
    goes to [sleeping] and is not respawned; otherwise it goes through
    [crashed] back to [starting] and a new child is spawned at once. The
    budget test is the one the contract example and [test/module.test.js] fix:
    [maxRestarts = 1] ends with [crashes === 2]. *)
Definition onExit (code : option Z) (signal : option string) (uptimeOk : bool)
    (nextPid : Z) (w : WorkerMonitor) : WorkerMonitor * list EventType :=
  if stopRequested w then
    (set_life (crashState w) None true (crashLoop w) (launches w) w, [EXIT])
  else
    let n := S (crashes (crashState w)) in
    if (maxRestarts w <? n)%nat then
      (set_life (mkCrashState sleeping n code signal) None false
                (negb uptimeOk) (launches w) w,
       [EXIT; CRASH; SLEEP])
    else
      (set_life (mkCrashState starting n code signal) (Some nextPid) false
                (negb uptimeOk) (S (launches w)) w,
       [EXIT; CRASH; SPAWN]).

(** Modelled from the spec: [WorkerMonitor.stop()] is missing from the
    sources; it terminates the process, prevents any further respawn and
    emits STOP. *)
Definition stop (w : WorkerMonitor) : WorkerMonitor * list EventType :=
  (set_life (mkCrashState stopped (crashes (crashState w))
                          (lastExitCode (crashState w)) (lastSignal (crashState w)))
            None true (crashLoop w) (launches w) w,
   [STOP]).

(** Modelled from the spec: [WorkerMonitor.restart()] is missing from the
    sources; it stops the current process and starts a new one, returning
    once the new process has reported START. The crash counter is left as it
    is here; see [survivedMinUptime]. *)
Definition restart (pid : Z) (w : WorkerMonitor) : WorkerMonitor * list EventType :=
  let w1 := fst (stop w) in
  let w2 := fst (start pid w1) in
  (fst (confirmLive w2), [RESTART]).

(** Modelled from the spec: after a restart the crash counter is reset only
    once the new process has survived past the minimum-uptime threshold. *)
Definition survivedMinUptime (w : WorkerMonitor) : WorkerMonitor :=
  set_life (mkCrashState (status (crashState w)) 0
                         (lastExitCode (crashState w)) (lastSignal (crashState w)))
           (childPid w) (stopRequested w) false (launches w) w.

Definition status_name (s : Status) : string :=
  match s with
  | starting => "starting" | running => "running" | sleeping => "sleeping"
  | crashed => "crashed" | stopped => "stopped"
  end.

Definition opt_num (o : option Z) : Value :=
  match o with Some z => VNum z | None => VNull end.

Definition opt_str (o : option string) : Value :=
  match o with Some s => VStr s | None => VNull end.

Definition crashState_toJSON (cs : CrashState) : Obj :=
  <["status" := VStr (status_name (status cs))]>
  (<["crashes" := VNum (Z.of_nat (crashes cs))]>
  (<["lastExitCode" := opt_num (lastExitCode cs)]>
  (<["lastSignal" := opt_str (lastSignal cs)]> ∅))).

(** Modelled from the spec: [WorkerMonitor.toJSON()] is missing from the
    sources; it is a snapshot of [data] merged with the crash state (under
    [monitor]) and the child's pid (under [pid]). *)
Definition toJSON (w : WorkerMonitor) : Obj :=
  <["monitor" := VObj (crashState_toJSON (crashState w))]>
  (<["pid" := opt_num (childPid w)]> (data w)).

(** A child that exits immediately after every launch: as long as a child
    process is alive, the next thing that happens is its exit (code 1, no
    signal, below the minimum uptime). [fuel] bounds the exits observed. *)
Fixpoint crashLoopRun (fuel : nat) (w : WorkerMonitor) : WorkerMonitor :=
  match fuel with
  | O => w
  | S fuel' =>
      match childPid w with
      | None => w
      | Some pid => crashLoopRun fuel' (fst (onExit (Some 1) None false (pid + 1) w))
      end
  end.

End WorkerLifecycle.

(** ** Collaborators

    Helpers the orchestrator imports that are not among the sources: they are
    parameters of the development. *)

Class Collaborators := {
  (** [utils/ensureInstanceNumber]: normalises a requested instance count. *)
  ensureInstanceNumber : Value → nat;
  (** [workspace.getRunDir()], [utils/getKey], [ensureLocalDomainPath]. *)
  runDir : string;
  getKey : Value → string;
  ensureLocalDomainPath : string → string;
  (** [PidHelpers.getPidFile(name, instanceNum)]: the path it resolves to. *)
  getPidFilePath : Value → Z → string;
  (** [utils/getInstanceDisplayName]. *)
  getInstanceDisplayName : Value → Z → Value;
  (** [utils/isWin]. *)
  isWin : bool;
  (** The process id the operating system gives the child of a worker. *)
  spawnPid : nat → Z;
}.

Inductive Level := trace | debug | info | warn | error | fatal.

Record LogEntry := mkLog { log_level : Level; log_text : string; log_arg : Value }.

(** ** Master Orchestrator ([src/monitor/MasterMonitor.js]) *)

Record Master := mkMaster {
  (** the store of [WorkerMonitor] objects, by reference *)
  heap : gmap nat WorkerMonitor;
  nextRef : nat;
  (** [this.workerMonitors]: an array of references *)
  workerMonitors : list nat;
  (** [this.socket]: the bound control-channel server, or [null] *)
  socket : option string;
  (** whether the control-channel server is accepting connections *)
  listening : bool;
  (** [this._workerMonitorOptions]: [data] and the respawn budget *)
  templateData : Obj;
  templateMaxRestarts : nat;
  (** the run directory: PID files and socket files *)
  files : gset string;
  (** [logger] calls and [runEvent] calls, oldest first *)
  logs : list LogEntry;
  hooks : list EventType;
  (** [process.exit(code)]: [Some None] is [process.exit()] *)
  exited : option (option Z);
}.

Definition with_heap (h : gmap nat WorkerMonitor) (m : Master) : Master :=
  mkMaster h (nextRef m) (workerMonitors m) (socket m) (listening m)
           (templateData m) (templateMaxRestarts m) (files m) (logs m) (hooks m)
           (exited m).

Definition with_nextRef (n : nat) (m : Master) : Master :=
  mkMaster (heap m) n (workerMonitors m) (socket m) (listening m)
           (templateData m) (templateMaxRestarts m) (files m) (logs m) (hooks m)
           (exited m).

Definition with_workerMonitors (l : list nat) (m : Master) : Master :=
  mkMaster (heap m) (nextRef m) l (socket m) (listening m)
           (templateData m) (templateMaxRestarts m) (files m) (logs m) (hooks m)
           (exited m).

Definition with_socket (s : option string) (open : bool) (m : Master) : Master :=
  mkMaster (heap m) (nextRef m) (workerMonitors m) s open
           (templateData m) (templateMaxRestarts m) (files m) (logs m) (hooks m)
           (exited m).

Definition with_files (f : gset string) (m : Master) : Master :=
  mkMaster (heap m) (nextRef m) (workerMonitors m) (socket m) (listening m)
           (templateData m) (templateMaxRestarts m) f (logs m) (hooks m)
           (exited m).

Definition add_log (e : LogEntry) (m : Master) : Master :=
  mkMaster (heap m) (nextRef m) (workerMonitors m) (socket m) (listening m)
           (templateData m) (templateMaxRestarts m) (files m) (logs m ++ [e])
           (hooks m) (exited m).

Definition runEvent (e : EventType) (m : Master) : Master :=
  mkMaster (heap m) (nextRef m) (workerMonitors m) (socket m) (listening m)
           (templateData m) (templateMaxRestarts m) (files m) (logs m)
           (hooks m ++ [e]) (exited m).

Definition process_exit (code : option Z) (m : Master) : Master :=
  mkMaster (heap m) (nextRef m) (workerMonitors m) (socket m) (listening m)
           (templateData m) (templateMaxRestarts m) (files m) (logs m) (hooks m)
           (Some code).

(** [new MasterMonitor(options)]: no worker, no socket. *)
Definition newMaster (options : Obj) (budget : nat) (disk : gset string) : Master :=
  mkMaster ∅ 0 [] None false options budget disk [] [] None.

(** Mutating the object behind a reference. *)
Definition modify_worker (r : nat) (f : WorkerMonitor → WorkerMonitor)
    (m : Master) : Master :=
  with_heap (alter f r (heap m)) m.

(** [workerMonitor.instanceNum] as the number the source computes with. Every
    worker in [workerMonitors] has one (see [wf_master]). *)
Definition inum (m : Master) (r : nat) : option Z := heap m !! r ≫= instanceNum.

Definition inumZ (m : Master) (r : nat) : Z := default 0 (inum m r).

(** [workerMonitor.toJSON()] through a reference. *)
Definition toJSON (m : Master) (r : nat) : Obj :=
  match heap m !! r with
  | Some w => WorkerLifecycle.toJSON w
  | None => ∅
  end.

(** [workerMonitor.data[k]] through a reference. *)
Definition data_get (m : Master) (r : nat) (k : string) : Value :=
  match heap m !! r with
  | Some w => get (data w) k
  | None => VUndefined
  end.

(** [workerMonitors.sort((a, b) => a.instanceNum - b.instanceNum)]: a stable
    sort; [a] stays before [b] when the comparator is not positive. *)
Fixpoint insert_by (key : nat → Z) (x : nat) (l : list nat) : list nat :=
  match l with
  | [] => [x]
  | y :: l' => if key x - key y <=? 0 then x :: y :: l' else y :: insert_by key x l'
  end.

Definition sort_by (key : nat → Z) (l : list nat) : list nat :=
  foldr (insert_by key) [] l.

(** [workerMonitors.find(wm => wm.instanceNum === instanceNum)]. *)
Definition inum_value (m : Master) (r : nat) : Value :=
  match inum m r with
  | Some n => VNum n
  | None => VUndefined
  end.

Definition find_worker (m : Master) (arg : Value) : option nat :=
  List.find (λ r, strict_eq (inum_value m r) arg) (workerMonitors m).

(** *** spawn *)

(** [SocketsHelpers.getSocketPath(keyOrMonitor)]. *)
Definition getSocketPath `{Collaborators} (keyOrMonitor : Value) : string :=
  ensureLocalDomainPath (Path.join runDir (getKey keyOrMonitor) +:+ ".sock").

(** The program points of one bootstrap promise: the START handler that
    [spawn] installs on a new worker, suspended at each of its awaits. *)
Inductive BootPc :=
| BPending                                        (* start() called, START not emitted yet *)
| BGetPidFile (n : Z) (name : Value)              (* await getPidFile(name, instanceNum) *)
| BGetSocketPath (n : Z) (name : Value) (pidFile : string)  (* await getSocketPath(name) *)
| BWritePid                                       (* await writePid(options) *)
| BDone (json : Obj).                             (* resolve(workerMonitor.toJSON()) *)

Definition boot_settled (pc : BootPc) : option Obj :=
  match pc with
  | BDone json => Some json
  | _ => None
  end.

(** [catch (err) { logger.debug(err); errors.push(err); }] followed by
    [resolve(workerMonitor.toJSON())]. *)
Definition boot_catch (r : nat) (err : Error) (m : Master) (errors : list Error)
    : Master * list Error * BootPc :=
  let m1 := add_log (mkLog debug (err_message err) VUndefined) m in
  (m1, errors ++ [err], BDone (toJSON m1 r)).

Section Spawn.
Context `{Collaborators}.

(** The START handler, from one await to the next. At [BPending] the event
    is START itself and the outcome is not looked at. *)
Definition bootstrap_step (o : Outcome) (r : nat) (pc : BootPc)
    (m : Master) (errors : list Error) : Master * list Error * BootPc :=
  match pc with
  | BPending =>
      let m0 := modify_worker r (λ w, fst (WorkerLifecycle.confirmLive w)) m in
      let numbers :=
        if (0 <? length (workerMonitors m0))%nat
        then map (inumZ m0) (workerMonitors m0)
        else [0] in
      let n := Math_max numbers + 1 in
      let m1 := modify_worker r (set_instanceNum n) m0 in
      let m2 := with_workerMonitors (workerMonitors m1 ++ [r]) m1 in
      (m2, errors, BGetPidFile n (data_get m2 r "name"))
  | BGetPidFile n name =>
      match o with
      | Rejected err => boot_catch r err m errors
      | Resolved => (m, errors, BGetSocketPath n name (getPidFilePath name n))
      end
  | BGetSocketPath n name pidFile =>
      match o with
      | Rejected err => boot_catch r err m errors
      | Resolved =>
          let socketPath := getSocketPath name in
          let m1 := modify_worker r (λ w,
            let d1 := <["instanceNum" := VNum n]> (data w) in
            let d2 := <["pidFile" := VStr pidFile]> d1 in
            let d3 := <["socketPath" := VStr socketPath]> d2 in
            set_data (<["displayName" := getInstanceDisplayName (get d3 "name") n]> d3) w) m in
          (m1, errors, BWritePid)
      end
  | BWritePid =>
      match o with
      | Rejected err => boot_catch r err m errors
      | Resolved =>
          let m1 := match data_get m r "pidFile" with
                    | VStr p => with_files ({[p]} ∪ files m) m
                    | _ => m
                    end in
          let m2 := with_workerMonitors (sort_by (inumZ m1) (workerMonitors m1)) m1 in
          let m3 := add_log (mkLog info "started" (data_get m2 r "displayName")) m2 in
          let m4 := runEvent START m3 in
          (m4, errors, BDone (toJSON m4 r))
      end
  | BDone json => (m, errors, pc)
  end.

(** One call of [spawn] in flight: the orchestrator, the call's [errors]
    collector and its bootstrap promises, in request order. *)
Record SpawnCall := mkSpawn {
  sp_master : Master;
  sp_errors : list Error;
  sp_boot : list (nat * BootPc);
}.

(** [new Array(n).fill().map(() => new WorkerMonitor(this._workerMonitorOptions))] *)
Definition new_workers (n : nat) (m : Master) : list nat * Master :=
  let refs := seq (nextRef m) n in
  let w := WorkerLifecycle.create (templateData m) (templateMaxRestarts m) in
  (refs,
   with_nextRef (nextRef m + n)%nat
     (with_heap (foldr (λ r h, <[r := w]> h) (heap m) refs) m)).

(** [workerMonitor.start()] inside the promise executor; the SPAWN event it
    emits runs the SPAWN hook. *)
Definition start_worker (r : nat) (m : Master) : Master :=
  runEvent SPAWN
    (modify_worker r (λ w, fst (WorkerLifecycle.start (spawnPid r) w)) m).

(** [spawn(options)] up to [await Promise.all(bootstraps)]. The lazy bind of
    the control socket ([getSocketPath] then [startServer]) settles as [bind]
    says; when it rejects, so does [spawn], before any worker is started. *)
Definition spawn_begin (options : Obj) (bind : Outcome) (m : Master)
    : Error + SpawnCall :=
  let newInstances := ensureInstanceNumber (get options "instances") in
  let '(refs, m1) := new_workers newInstances m in
  let bound :=
    match socket m1 with
    | Some _ => inr m1
    | None =>
        match bind with
        | Rejected err => inl err
        | Resolved =>
            let socketPath := getSocketPath (get (templateData m1) "name") in
            inr (with_files ({[socketPath]} ∪ files m1)
                   (with_socket (Some socketPath) true m1))
        end
    end in
  match bound with
  | inl err => inl err
  | inr m2 =>
      inr (mkSpawn (foldl (λ m r, start_worker r m) m2 refs) []
                   (map (λ r, (r, BPending)) refs))
  end.

(** The event loop runs the continuation of bootstrap [i] with outcome [o]. *)
Definition spawn_resume (i : nat) (o : Outcome) (s : SpawnCall) : SpawnCall :=
  match sp_boot s !! i with
  | Some (r, pc) =>
      let '(m, errors, pc') := bootstrap_step o r pc (sp_master s) (sp_errors s) in
      mkSpawn m errors (<[i := (r, pc')]> (sp_boot s))
  | None => s
  end.

Inductive spawn_step : SpawnCall → SpawnCall → Prop :=
| spawn_step_at (i : nat) (o : Outcome) (s : SpawnCall) (r : nat) (pc : BootPc) :
    sp_boot s !! i = Some (r, pc) →
    boot_settled pc = None →
    spawn_step s (spawn_resume i o s).

(** [Promise.all(promises)] resolves, with the values in the promises' order,
    once every promise has resolved. *)
Definition Promise_all {A} (promises : list (option A)) : option (list A) :=
  mapM id promises.

Record SpawnResult := mkSpawnResult {
  ok : bool;
  errors : list Error;
  added : list Obj;
}.

(** What [spawn] returns, once it returns. *)
Definition spawn_result (s : SpawnCall) : option SpawnResult :=
  added ← Promise_all (map (λ b, boot_settled (snd b)) (sp_boot s));
  Some (mkSpawnResult (length (sp_errors s) <? length (sp_boot s))%nat
                      (sp_errors s) added).

End Spawn.

(** *** shutDown *)

(** [SocketsHelpers.removeDomainSocketFile(socketPath)], on the run
    directory: nothing on Windows; an object stands for its [socketPath]. *)
Definition removeDomainSocketFile `{Collaborators} (socketPath : Value)
    (disk : gset string) : gset string :=
  if isWin then disk
  else
    let p := match socketPath with
             | VObj o => get o "socketPath"
             | v => v
             end in
    match p with
    | VStr s => disk ∖ {[s]}
    | _ => disk
    end.

(** Modelled from the spec: [removeDomainSocket], which the orchestrator
    imports from [SocketsHelpers], is missing from the sources (the module
    there exports [removeDomainSocketFile]); it removes the control-socket
    file at the given path. *)
Definition removeDomainSocket (socketPath : Value) (m : Master) : Master :=
  match socketPath with
  | VStr s => with_files (files m ∖ {[s]}) m
  | _ => m
  end.

(** Modelled from the spec: [PidHelpers.removePidFile] is missing from the
    sources; it removes the PID record at the given path. *)
Definition removePidFile (pidFile : Value) (m : Master) : Master :=
  match pidFile with
  | VStr p => with_files (files m ∖ {[p]}) m
  | _ => m
  end.

(** The program points of one [shutDown(instanceNum)] call. *)
Inductive ShutPc :=
| SStop (r : nat)                               (* await workerMonitor.stop() *)
| SRemovePid (socketPath pidFile : Value)       (* await removePidFile(pidFile) *)
| SClose                                        (* await the close of this.socket *)
| SReturned                                     (* resolved *)
| SThrew (err : Error)                          (* rejected *)
| SExited.                                      (* process.exit(0) was called *)

Definition shut_waiting (pc : ShutPc) : bool :=
  match pc with
  | SStop _ | SRemovePid _ _ | SClose => true
  | _ => false
  end.

(** [!instanceNum && instanceNum !== 0]: the call is a broadcast. *)
Definition is_broadcast (instanceNum : Value) : bool :=
  negb (truthy instanceNum) && negb (strict_eq instanceNum (VNum 0)).

(** [shutDown(instanceNum)] for one instance, up to its first await. *)
Definition shutDown_one (instanceNum : Value) (m : Master) : Master * ShutPc :=
  match find_worker m instanceNum with
  | None =>
      (add_log (mkLog warn "Can not stop instance number" instanceNum) m, SReturned)
  | Some r => (m, SStop r)
  end.

(** [shutDown(instanceNum)] from one await to the next. When [stop()] has
    resolved the STOP handler has logged and run its hook. *)
Definition shut_step (o : Outcome) (pc : ShutPc) (m : Master) : Master * ShutPc :=
  match pc with
  | SStop r =>
      match o with
      | Rejected err => (m, SThrew err)
      | Resolved =>
          let m0 := runEvent STOP
                      (add_log (mkLog warn "stopped" (data_get m r "displayName"))
                         (modify_worker r (λ w, fst (WorkerLifecycle.stop w)) m)) in
          let json := toJSON m0 r in
          let index := indexOf r (workerMonitors m0) in
          let m1 := with_workerMonitors (splice1 index (workerMonitors m0)) m0 in
          (m1, SRemovePid (get json "socketPath") (get json "pidFile"))
      end
  | SRemovePid socketPath pidFile =>
      match o with
      | Rejected err => (m, SThrew err)
      | Resolved =>
          let m1 := removePidFile pidFile m in
          if (length (workerMonitors m1) =? 0)%nat then
            let m2 := removeDomainSocket socketPath m1 in
            match socket m2 with
            | Some _ => (m2, SClose)
            | None => (process_exit (Some 0) m2, SExited)
            end
          else (m1, SReturned)
      end
  | SClose =>
      match o with
      | Rejected err => (m, SThrew err)
      | Resolved =>
          (process_exit (Some 0) (with_socket (socket m) false m), SExited)
      end
  | SReturned | SThrew _ | SExited => (m, pc)
  end.

(** [shutDown()] with no instance number: one nested call per worker, each
    run up to its first await, in array order. The nested argument is the
    worker's own instance number: every registered worker has one (see
    [wf_master]), so no nested call is a broadcast again. *)
Definition shutDown_all (m : Master) : Master * list ShutPc :=
  foldl (λ acc r,
           let '(m1, pc) := shutDown_one (inum_value (fst acc) r) (fst acc) in
           (m1, snd acc ++ [pc]))
        (m, []) (workerMonitors m).

(** [shutDown(instanceNum)] as the control channel calls it. *)
Definition shutDown (instanceNum : Value) (m : Master) : Master * list ShutPc :=
  if is_broadcast instanceNum then shutDown_all m
  else let '(m1, pc) := shutDown_one instanceNum m in (m1, [pc]).


(** *** The exit handler of the constructor *)

Record ExitCall := mkExit {
  ex_master : Master;
  ex_tasks : list ShutPc;
}.

Definition first_rejection (tasks : list ShutPc) : option Error :=
  List.find (λ pc, match pc with SThrew _ => true | _ => false end) tasks
  ≫= λ pc, match pc with SThrew e => Some e | _ => None end.

Definition all_returned (tasks : list ShutPc) : bool :=
  forallb (λ pc, match pc with SReturned => true | _ => false end) tasks.

(** [try { await this.shutDown() } catch (err) { logger.debug(err) }
    process.exit()]: [Promise.all] rejects with the first rejection and
    resolves once every nested call has resolved; either way the handler then
    exits the process. *)
Definition exit_join (s : ExitCall) : ExitCall :=
  match exited (ex_master s) with
  | Some _ => s
  | None =>
      match first_rejection (ex_tasks s) with
      | Some err =>
          mkExit (process_exit None
                    (add_log (mkLog debug (err_message err) VUndefined) (ex_master s)))
                 (ex_tasks s)
      | None =>
          if all_returned (ex_tasks s)
          then mkExit (process_exit None (ex_master s)) (ex_tasks s)
          else s
      end
  end.

Definition exit_begin (m : Master) : ExitCall :=
  let '(m1, tasks) := shutDown_all m in exit_join (mkExit m1 tasks).

Definition exit_resume (i : nat) (o : Outcome) (s : ExitCall) : ExitCall :=
  match ex_tasks s !! i with
  | Some pc =>
      let '(m, pc') := shut_step o pc (ex_master s) in
      exit_join (mkExit m (<[i := pc']> (ex_tasks s)))
  | None => s
  end.

Inductive exit_step : ExitCall → ExitCall → Prop :=
| exit_step_at (i : nat) (o : Outcome) (s : ExitCall) (pc : ShutPc) :
    ex_tasks s !! i = Some pc →
    shut_waiting pc = true →
    exited (ex_master s) = None →
    exit_step s (exit_resume i o s).

(** *** scale *)

Section Scale.
Context `{Collaborators}.










End Scale.

(** *** state *)

(** [Object.assign(workerMonitor.data, newState)]. *)
Definition assign_state (newState : Value) (w : WorkerMonitor) : WorkerMonitor :=
  set_data (Object_assign (data w) newState) w.

(** [state(newState)]: every worker, in array order, gets [newState] merged
    into its [data] when [newState] is truthy, and is then snapshot. *)
Definition state_loop (newState : Value) (refs : list nat) (m : Master)
    : Master * list Value :=
  foldl (λ acc r,
           let m1 := if truthy newState
                     then modify_worker r (assign_state newState) (fst acc)
                     else fst acc in
           (m1, snd acc ++ [VObj (toJSON m1 r)]))
        (m, []) refs.

Definition state (newState : Value) (m : Master) : Master * Value :=
  let '(m1, stateList) := state_loop newState (workerMonitors m) m in
  (m1, VObj {[ "stateList" := VArr stateList ]}).

(** ** Control Channel ([SocketsHelpers.startServer]) *)

Module ControlChannel.

Inductive Kind := REQUEST | PUBLISH.

Definition kind_eq (a b : Kind) : bool :=
  match a, b with
  | REQUEST, REQUEST | PUBLISH, PUBLISH => true
  | _, _ => false
  end.

(** How [await masterMonitor[method](...args)] ends, and the orchestrator
    state it leaves. *)
Inductive Invocation (S : Type) :=
| Resolves (resp : Value) (s : S)
| Throws (err : Error) (s : S)
| NeverSettles (s : S).
Arguments Resolves {S}.
Arguments Throws {S}.
Arguments NeverSettles {S}.

(** What [masterMonitor[method]] is. *)
Inductive Property (S : Type) :=
| NotCallable
| Callable (call : list Value → S → Invocation S).
Arguments NotCallable {S}.
Arguments Callable {S}.

(** What the listener does to the outside. *)
Inductive Effect :=
| SetCurrentWorker                                (* masterMonitor.currentWorkerMonitor = workerMonitor *)
| Send (method : Value) (resp : Value)            (* socket.send(method, resp) *)
| Log (level : Level) (text : string) (method : Value).

Definition is_send (e : Effect) : bool :=
  match e with Send _ _ => true | _ => false end.

(** [const { args = [], method } = data] and the spread [...args]: an absent
    [args] is the empty list, an array is spread into its elements and a
    string into its characters; nothing else is iterable. *)
Definition spread_args (d : Obj) : Error + list Value :=
  match get d "args" with
  | VUndefined => inr []
  | VArr l => inr l
  | VStr s => inr (characters s)
  | _ => inl (mkError TypeError "args is not iterable")
  end.

(** The listener [createListener(event)] installs, run on one message. *)
Definition listener {S} (masterMonitor : Value → Property S) (event : Kind)
    (data : Value) (s : S) : list Effect * S :=
  match data with
  | VObj d =>
      let method := get d "method" in
      if negb (truthy method) then ([], s)
      else
        match masterMonitor method with
        | Callable call =>
            match spread_args d with
            | inl err =>
                ([SetCurrentWorker; Log error "Failed to handle API call" method], s)
            | inr args =>
                match call args s with
                | Resolves resp s' =>
                    if kind_eq event REQUEST
                    then ([SetCurrentWorker; Send method resp], s')
                    else ([SetCurrentWorker], s')
                | Throws err s' =>
                    ([SetCurrentWorker; Log error "Failed to handle API call" method], s')
                | NeverSettles s' => ([SetCurrentWorker], s')
                end
            end
        | NotCallable =>
            ([SetCurrentWorker;
              Log warn "Received API call, but it's not supported" method], s)
        end
  | _ => ([], s)
  end.

(** Modelled from the spec: the transport ([utils/ipc]) is missing from the
    sources; a request expects exactly one reply, the resolved result the
    server sends back on the same connection. Without a reply the request
    stays pending ([None]). *)
Definition reply (effects : list Effect) : option Value :=
  List.find is_send effects ≫= λ e,
    match e with Send _ resp => Some resp | _ => None end.



(** The replies among the effects of a listener run. *)
Definition sends (effects : list Effect) : list Effect := List.filter is_send effects.

(** The message is an object whose [method] is truthy: it names a method. *)
Definition names_method (data : Value) (method : Value) (d : Obj) : Prop :=
  data = VObj d ∧ get d "method" = method ∧ truthy method = true.

End ControlChannel.

(** ** Discovery and the remote handle *)

Module Discovery.

Record PidRef := mkPidRef { pid : Value; pkey : string; pidFile : Value }.

Record SocketRef := mkSocketRef { socketPath : string; skey : string }.

Record ConnectionRef := mkRef {
  ref_key : string;
  ref_socket : nat;
  ref_pid : Value;
  ref_pidFile : Value;
  ref_socketPath : string;
}.

(** How [createClient(socketPath)] ends: a client socket, or an error with
    its [code] (if any). *)
Inductive Connect :=
| Connected (sock : nat)
| ConnectError (code : option string).

(** What the client process sees. [pidRecords] is what [getPids()] resolves
    to and [globbed] what the glob of [getSocketFiles] matches; [connect]
    probes a socket path; [answer] is the reply of a connected supervisor to
    a STATE request ([None]: the request fails). *)
Record World := mkWorld {
  pidRecords : list PidRef;
  globbed : list string;
  connect : string → Connect;
  answer : nat → option Value;
}.

(** The client's own effects: the run directory, the connections it closed,
    its error log. *)
Record Client := mkClient {
  disk : gset string;
  closed : list nat;
  errlog : list string;
}.

Definition with_disk (d : gset string) (c : Client) : Client :=
  mkClient d (closed c) (errlog c).

Definition close_socket (s : nat) (c : Client) : Client :=
  mkClient (disk c) (closed c ++ [s]) (errlog c).

Definition log_error (t : string) (c : Client) : Client :=
  mkClient (disk c) (closed c) (errlog c ++ [t]).

(** [path.basename(p, ext)]: the last segment of the path, trailing
    separators ignored, without the extension [ext] when the segment ends
    with it and is more than it; nothing when the path is the extension. *)
Fixpoint trim_separators (p : string) : string :=
  match p with
  | EmptyString => ""
  | String c rest =>
      let t := trim_separators rest in
      if Ascii.eqb c "/"%char && String.eqb t "" then "" else String c t
  end.

Fixpoint last_segment (acc : string) (p : string) : string :=
  match p with
  | EmptyString => acc
  | String c rest =>
      if Ascii.eqb c "/"%char then last_segment "" rest
      else last_segment (acc +:+ String c "") rest
  end.

Fixpoint strip_suffix (ext : string) (s : string) : string :=
  match s with
  | EmptyString => s
  | String c rest =>
      if String.eqb s ext then ""
      else String c (strip_suffix ext rest)
  end.

Definition basename (p ext : string) : string :=
  if String.eqb p ext then ""
  else
    let b := last_segment "" (trim_separators p) in
    if String.eqb b ext then b else strip_suffix ext b.

(** [getSocketFiles()]: every matched path with its key. *)
Definition getSocketFiles (w : World) : list SocketRef :=
  map (λ p, mkSocketRef p (basename p ".sock")) (globbed w).

Definition no_owner_code (code : option string) : bool :=
  match code with
  | Some c => String.eqb c "ECONNRESET" || String.eqb c "ECONNREFUSED"
              || String.eqb c "ENOENT"
  | None => false
  end.

Section WithCollaborators.
Context `{Collaborators}.

(** [SocketsHelpers.startClient(socketPath)]: the client socket, or
    [undefined] after removing the socket file (no live owner) or logging
    the error (anything else). *)
Definition startClient (w : World) (socketPath : string) (c : Client)
    : option nat * Client :=
  match connect w socketPath with
  | Connected s => (Some s, c)
  | ConnectError code =>
      if no_owner_code code
      then (None, with_disk (removeDomainSocketFile (VStr socketPath) (disk c)) c)
      else (None, log_error "socket error" c)
  end.

(** The DEPRECATED adaptation of an old-version state inside [getState]:
    [data] is flattened into the state and the old top level becomes
    [monitor] (a copy here; the source makes it the state itself). *)
Definition adapt_state (state : Value) : Value :=
  match state with
  | VObj o =>
      if truthy (get o "data") then
        let o1 := delete "data" o in
        let o2 := <["monitor" := VObj o1]> o1 in
        let o3 := Object_assign o2 (get o "data") in
        let o4 := if truthy (get o3 "parentPid") && negb (truthy (get o3 "ppid"))
                  then <["ppid" := get o3 "parentPid"]> o3 else o3 in
        VObj o4
      else state
  | _ => state
  end.

(** [getState(socket, ...args)] given how the request ended: the adapted
    state, or [null] after closing the socket when the request failed. *)
Definition getState (response : option Value) (sock : nat) (c : Client)
    : Value * Client :=
  match response with
  | Some state => (adapt_state state, c)
  | None => (VNull, close_socket sock c)
  end.

(** The first pass of [getAll]: one probe per PID record. *)
Definition probe_pid (w : World) (acc : list ConnectionRef * Client) (p : PidRef)
    : list ConnectionRef * Client :=
  let socketPath := getSocketPath (VStr (pkey p)) in
  let '(socket, c1) := startClient w socketPath (snd acc) in
  match socket with
  | Some s => (fst acc ++ [mkRef (pkey p) s (pid p) (pidFile p) socketPath], c1)
  | None => (fst acc, with_disk (removeDomainSocketFile (VStr socketPath) (disk c1)) c1)
  end.

(** [differenceWith(socketRefs, pidRefs, (s, p) => s.key === p.key)]. *)
Definition differenceWith (socketRefs : list SocketRef) (pidRefs : list PidRef)
    : list SocketRef :=
  List.filter (λ s, negb (existsb (λ p, String.eqb (skey s) (pkey p)) pidRefs))
              socketRefs.

(** The second pass: one probe per socket file without a PID record. *)
Definition probe_socket (w : World) (acc : list ConnectionRef * Client)
    (s : SocketRef) : list ConnectionRef * Client :=
  let '(socket, c1) := startClient w (socketPath s) (snd acc) in
  match socket with
  | Some sock =>
      let '(state, c2) := getState (answer w sock) sock c1 in
      match state with
      | VObj o =>
          (fst acc ++ [mkRef (skey s) sock (get o "pid") (get o "pidFile") (socketPath s)],
           c2)
      | _ => if truthy state
             then (fst acc ++ [mkRef (skey s) sock VUndefined VUndefined (socketPath s)], c2)
             else (fst acc, c2)
      end
  | None => (fst acc, c1)
  end.

(** [getAll()]. The probes of one pass are started together and push as they
    complete; they are taken in list order here, which fixes one of the
    orders the result can have. *)
Definition getAll (w : World) (c : Client) : list ConnectionRef * Client :=
  let pidRefs := pidRecords w in
  let socketRefs := getSocketFiles w in
  let pass1 := foldl (probe_pid w) ([], c) pidRefs in
  if isWin then pass1
  else foldl (probe_socket w) pass1 (differenceWith socketRefs pidRefs).

(** [getByName(name)]. *)
Definition getByName (name : Value) (w : World) (c : Client)
    : list ConnectionRef * Client :=
  let '(refsList, c0) := getAll w c in
  foldl (λ acc ref,
           let '(state, c1) := getState (answer w (ref_socket ref)) (ref_socket ref) (snd acc) in
           if truthy state then
             if strict_eq name (match state with VObj o => get o "name" | _ => VUndefined end)
             then (fst acc ++ [ref], c1)
             else (fst acc, close_socket (ref_socket ref) c1)
           else (fst acc, c1))
        ([], c0) refsList.

(** [getByKey(key)]: the last matching candidate, or [undefined]. *)
Definition getByKey (key : Value) (w : World) (c : Client)
    : option ConnectionRef * Client :=
  let '(refsList, c0) := getAll w c in
  foldl (λ acc ref,
           let '(state, c1) := getState (answer w (ref_socket ref)) (ref_socket ref) (snd acc) in
           if truthy state then
             if strict_eq key (match state with VObj o => get o "key" | _ => VUndefined end)
             then (Some ref, c1)
             else (fst acc, close_socket (ref_socket ref) c1)
           else (fst acc, c1))
        (None, c0) refsList.

(** A [ConnectionRef] as the object it is. The socket is an object too. *)
Definition ref_value (r : ConnectionRef) : Value :=
  VObj (<["key" := VStr (ref_key r)]>
       (<["socket" := VObj {[ "id" := VNum (Z.of_nat (ref_socket r)) ]}]>
       (<["pid" := ref_pid r]>
       (<["pidFile" := ref_pidFile r]>
       (<["socketPath" := VStr (ref_socketPath r)]> ∅))))).

(** [new Instance(ref, options)]. *)
Record Instance := mkInstance { _keepAlive : bool; _socket : Value }.

Definition newInstance (keepAlive : bool) (ref : Value) : Instance :=
  mkInstance keepAlive (match ref with VObj o => get o "socket" | _ => VUndefined end).

(** [refs.map((ref) => new Instance(ref, options))]: [map] is there on an
    array; reading it off [undefined] throws, and on any other value the
    property is not a function. *)
Definition map_instances (keepAlive : bool) (refs : Value) : Error + list Instance :=
  match refs with
  | VArr l => inr (map (newInstance keepAlive) l)
  | VUndefined | VNull =>
      inl (mkError TypeError "Cannot read properties of undefined (reading 'map')")
  | _ => inl (mkError TypeError "refs.map is not a function")
  end.

Definition getAllInstances (keepAlive : bool) (w : World) (c : Client)
    : (Error + list Instance) * Client :=
  let '(refs, c1) := getAll w c in
  (map_instances keepAlive (VArr (map ref_value refs)), c1).

Definition getInstancesByName (name : Value) (keepAlive : bool) (w : World)
    (c : Client) : (Error + list Instance) * Client :=
  let '(refs, c1) := getByName name w c in
  (map_instances keepAlive (VArr (map ref_value refs)), c1).

Definition getInstanceByKey (key : Value) (keepAlive : bool) (w : World)
    (c : Client) : (Error + list Instance) * Client :=
  let '(refs, c1) := getByKey key w c in
  (map_instances keepAlive
     (match refs with Some r => ref_value r | None => VUndefined end), c1).

(** Modelled from the spec: the client end of the transport ([utils/ipc]) is
    missing from the sources. A request on a connection that was closed
    connects again first: a caller without [keepAlive] pays a reconnect
    cost per call. *)
Record Link := mkLink { connected : bool; reconnects : nat }.







(** The reference a PID record yields, if its derived socket connects. *)
Definition pid_ref (w : World) (p : PidRef) : option ConnectionRef :=
  match connect w (getSocketPath (VStr (pkey p))) with
  | Connected s => Some (mkRef (pkey p) s (pid p) (pidFile p) (getSocketPath (VStr (pkey p))))
  | ConnectError _ => None
  end.

(** The reference a socket file yields, if it connects and answers. *)
Definition socket_ref (w : World) (s : SocketRef) : option ConnectionRef :=
  match connect w (socketPath s) with
  | Connected sock =>
      match answer w sock with
      | Some state =>
          match adapt_state state with
          | VObj o => Some (mkRef (skey s) sock (get o "pid") (get o "pidFile") (socketPath s))
          | v => if truthy v
                 then Some (mkRef (skey s) sock VUndefined VUndefined (socketPath s))
                 else None
          end
      | None => None
      end
  | ConnectError _ => None
  end.



End WithCollaborators.
End Discovery.

(** ** Invariants of the orchestrator *)

(** [workerMonitors] is strictly ascending by instance number. *)
Definition ascending (m : Master) : Prop :=
  StronglySorted Z.lt (map (inumZ m) (workerMonitors m)).

(** Every worker in [workerMonitors] has been given an instance number. *)
Definition assigned (m : Master) : Prop :=
  ∀ r, r ∈ workerMonitors m → is_Some (inum m r).

(** References are handed out in order: a registered worker was created
    before the next reference to be given. *)
Definition store_ok (m : Master) : Prop :=
  ∀ r, r ∈ workerMonitors m → (r < nextRef m)%nat.

Definition wf_master (m : Master) : Prop := ascending m ∧ assigned m.

(** What a bootstrap at a given program point knows about its worker: before
    START the worker object exists and is not registered; afterwards it holds
    the number the handler captured; once the derived fields are merged its
    [data] carries that number too. *)
Definition boot_ok (m : Master) (failed : Prop) (b : nat * BootPc) : Prop :=
  let r := fst b in
  match snd b with
  | BPending => (r ∉ workerMonitors m) ∧ is_Some (heap m !! r)
  | BGetPidFile n _ | BGetSocketPath n _ _ => inum m r = Some n
  | BWritePid =>
      ∃ n, inum m r = Some n ∧ data_get m r "instanceNum" = VNum n
  | BDone json =>
      ∃ n, inum m r = Some n ∧ (json !! "instanceNum" = Some (VNum n) ∨ failed)
  end.

Definition boot_started (b : nat * BootPc) : bool :=
  match snd b with
  | BPending => false
  | _ => true
  end.

(** The awaits a bootstrap still has in front of it, at most. *)
Definition steps_left (pc : BootPc) : nat :=
  match pc with
  | BPending => 4
  | BGetPidFile _ _ => 3
  | BGetSocketPath _ _ _ => 2
  | BWritePid => 1
  | BDone _ => 0
  end.

Definition settled_count (pc : BootPc) : nat :=
  match pc with
  | BDone _ => 1
  | _ => 0
  end.

Definition remaining (s : SpawnCall) : nat :=
  sum_list (map (λ b, steps_left (snd b)) (sp_boot s)).

(** The invariant of a [spawn] call in flight. *)
Definition spawn_inv (s : SpawnCall) : Prop :=
  wf_master (sp_master s)
  ∧ NoDup (map fst (sp_boot s))
  ∧ Forall (boot_ok (sp_master s) (sp_errors s ≠ [])) (sp_boot s)
  ∧ (length (sp_errors s) ≤ sum_list (map (λ b, settled_count (snd b)) (sp_boot s)))%nat.

(** On a fresh orchestrator the registered workers are the started ones of
    the call, numbered [1..k] in START order. *)
Definition fresh_inv (s : SpawnCall) : Prop :=
  workerMonitors (sp_master s) ≡ₚ map fst (List.filter boot_started (sp_boot s))
  ∧ map (inumZ (sp_master s)) (workerMonitors (sp_master s))
    = seqZ 1 (Z.of_nat (length (workerMonitors (sp_master s)))).

(** The number the START handler computes for a new worker: one more than
    the largest number in use, [1] when no worker is registered. *)
Definition allocated (m : Master) : Z :=
  Math_max (if (0 <? length (workerMonitors m))%nat
            then map (inumZ m) (workerMonitors m) else [0]) + 1.

(** ** How the bootstraps of a call end *)

(** How a bootstrap ends when its continuation runs at [pc] with outcome
    [o]: its [try] block throws and the [catch] pushes the error, or the
    block reaches its end. [None]: the bootstrap goes on to its next await
    (or had ended before). *)
Inductive BootEnd :=
| Failed (err : Error)
| Started.

Definition boot_end (o : Outcome) (pc : BootPc) : option BootEnd :=
  match pc, o with
  | BPending, _ | BDone _, _ => None
  | BWritePid, Resolved => Some Started
  | _, Rejected err => Some (Failed err)
  | _, Resolved => None
  end.

(** A run of a [spawn] call, with the ends of its bootstraps in the order
    they happen: each with the index of the bootstrap in the call. *)
Inductive spawn_run `{Collaborators}
    : SpawnCall → list (nat * BootEnd) → SpawnCall → Prop :=
| spawn_run_done (s : SpawnCall) : spawn_run s [] s
| spawn_run_next (i : nat) (o : Outcome) (s : SpawnCall) (r : nat) (pc : BootPc)
      (ends : list (nat * BootEnd)) (s' : SpawnCall) :
    sp_boot s !! i = Some (r, pc) →
    boot_settled pc = None →
    spawn_run (spawn_resume i o s) ends s' →
    spawn_run s (match boot_end o pc with
                 | Some e => (i, e) :: ends
                 | None => ends
                 end) s'.

(** The errors of the bootstraps that failed, and the bootstraps that went
    through. *)
Definition failures (ends : list (nat * BootEnd)) : list Error :=
  omap (λ e, match snd e with Failed err => Some err | Started => None end) ends.

Definition successes (ends : list (nat * BootEnd)) : list nat :=
  omap (λ e, match snd e with Started => Some (fst e) | Failed _ => None end) ends.

(** The bootstrap at index [i] of the call has resolved. *)
Definition settled_at (s : SpawnCall) (i : nat) : Prop :=
  ∃ r json, sp_boot s !! i = Some (r, BDone json).




(** ** Invariants of a scale-down *)



(** The awaits a [shutDown] call still has in front of it, at most. *)
Definition shut_left (pc : ShutPc) : nat :=
  match pc with
  | SStop _ => 3
  | SRemovePid _ _ => 2
  | SClose => 1
  | _ => 0
  end.



(** ** Invariants of the exit handler *)

Definition exit_left (s : ExitCall) : nat := sum_list (map shut_left (ex_tasks s)).

(** While the process lives the handler is still waiting: nothing was
    rejected, some nested call has not returned, and none has exited. Once
    it has exited, the code is that of the handler's own [process.exit()]
    or the 0 of the last [shutDown]. *)
Definition exit_inv (s : ExitCall) : Prop :=
  match exited (ex_master s) with
  | None =>
      first_rejection (ex_tasks s) = None
      ∧ all_returned (ex_tasks s) = false
      ∧ Forall (λ pc, pc ≠ SExited) (ex_tasks s)
  | Some code => code = None ∨ code = Some 0
  end.

(** ** Keys and discovered orchestrators *)

Fixpoint no_separator (s : string) : bool :=
  match s with
  | EmptyString => true
  | String c rest => negb (Ascii.eqb c "/"%char) && no_separator rest
  end.

(** A key that is a plain file name: not empty, not [.] or [..], and
    without a path separator. *)
Definition plain_name (k : string) : bool :=
  negb (String.eqb k "") && negb (String.eqb k ".") && negb (String.eqb k "..")
  && no_separator k.


(** ** Concrete collaborators and states *)

Module Examples.

#[export] Instance posix : Collaborators := {|
  ensureInstanceNumber v := match v with VNum z => Z.to_nat z | _ => 1%nat end;
  runDir := "/run";
  getKey v := match v with VStr s => s | _ => "" end;
  ensureLocalDomainPath p := p;
  getPidFilePath name n :=
    match name, n with
    | VStr s, 1 => "/run/" +:+ s +:+ "#1.pid"
    | VStr s, 2 => "/run/" +:+ s +:+ "#2.pid"
    | VStr s, _ => "/run/" +:+ s +:+ "#n.pid"
    | _, _ => "/run/.pid"
    end;
  getInstanceDisplayName name n := name;
  isWin := false;
  spawnPid r := 1000 + Z.of_nat r;
|}.

Definition options : Obj := {[ "name" := VStr "app" ]}.

Definition fresh : Master := newMaster options 1 ∅.

Definition boom : Error := mkError OtherError "boom".

(** Run a spawn call: the bootstraps named in [schedule] are resumed in that
    order, each with its outcome. *)
Definition run_spawn (schedule : list (nat * Outcome)) (s : SpawnCall) : SpawnCall :=
  foldl (λ s io, spawn_resume (fst io) (snd io) s) s schedule.

Definition begin_spawn (n : Z) (m : Master) : SpawnCall :=
  match spawn_begin {[ "instances" := VNum n ]} Resolved m with
  | inr s => s
  | inl _ => mkSpawn m [] []
  end.

(** Every bootstrap of a [k]-worker call taken through its four steps, one
    worker after the other, everything resolving. *)
Definition all_resolve (k : nat) : list (nat * Outcome) :=
  flat_map (λ i, replicate 4 (i, Resolved)) (seq 0 k).

(** One worker, started and registered. *)
Definition one_worker : Master := sp_master (run_spawn (all_resolve 1) (begin_spawn 1 fresh)).

(** Two workers, started and registered. *)
Definition two_workers : Master := sp_master (run_spawn (all_resolve 2) (begin_spawn 2 fresh)).


(** An object with one method, [ping], that resolves with [pong]. *)
Definition ping_object (method : Value) : ControlChannel.Property nat :=
  if strict_eq method (VStr "ping")
  then ControlChannel.Callable (λ args s, ControlChannel.Resolves (VStr "pong") (S s))
  else ControlChannel.NotCallable.

Definition ping_message : Obj := {[ "method" := VStr "ping" ]}.

(** Whether every entry of a schedule names a bootstrap that is still
    waiting when its turn comes. *)
Fixpoint schedule_ok (schedule : list (nat * Outcome)) (s : SpawnCall) : bool :=
  match schedule with
  | [] => true
  | (i, o) :: rest =>
      match sp_boot s !! i with
      | Some (_, pc) =>
          match boot_settled pc with
          | None => schedule_ok rest (spawn_resume i o s)
          | Some _ => false
          end
      | None => false
      end
  end.

Definition three_call : SpawnCall := run_spawn (all_resolve 3) (begin_spawn 3 fresh).

Definition three_result : SpawnResult :=
  default (mkSpawnResult false [] []) (spawn_result three_call).

(** A [shutDown(instanceNum)] call taken through its awaits. *)
Definition run_shut (outcomes : list Outcome) (mp : Master * ShutPc) : Master * ShutPc :=
  foldl (λ mp o, shut_step o (snd mp) (fst mp)) mp outcomes.

(** Two workers, then instance 2 shut down, then one more worker spawned. *)
Definition after_removing_2 : Master :=
  fst (run_shut [Resolved; Resolved] (shutDown_one (VNum 2) two_workers)).

Definition respawned : Master :=
  sp_master (run_spawn (all_resolve 1) (begin_spawn 1 after_removing_2)).

(** Two workers requested; the second one's [getPidFile] rejects. *)
Definition half_schedule : list (nat * Outcome) :=
  [(0, Resolved); (0, Resolved); (0, Resolved); (0, Resolved);
   (1, Resolved); (1, Rejected boom)]%nat.

Definition half_failed : SpawnCall := run_spawn half_schedule (begin_spawn 2 fresh).

(** A run directory with a live supervisor [app] (PID record and socket
    file), a dead one [old] (PID record and socket file), a zombie socket
    file, and a live supervisor [lost] whose PID record is gone. *)
Definition app_record : Discovery.PidRef :=
  Discovery.mkPidRef (VNum 100) "app" (VStr "/run/app#1.pid").

Definition old_record : Discovery.PidRef :=
  Discovery.mkPidRef (VNum 7) "old" (VStr "/run/old#1.pid").

Definition world : Discovery.World :=
  Discovery.mkWorld
    [app_record; old_record]
    ["/run/app.sock"; "/run/old.sock"; "/run/zombie.sock"; "/run/lost.sock"]
    (λ p, if String.eqb p "/run/app.sock" then Discovery.Connected 1
          else if String.eqb p "/run/lost.sock" then Discovery.Connected 2
          else Discovery.ConnectError (Some "ECONNREFUSED"))
    (λ sock, Some (VObj {[ "name" := VStr "app" ]})).

Definition client : Discovery.Client :=
  Discovery.mkClient
    (list_to_set ["/run/app.sock"; "/run/old.sock"; "/run/zombie.sock"; "/run/lost.sock"])
    [] [].










(** The ends of the bootstraps of a run through [schedule]. *)
Fixpoint run_ends (schedule : list (nat * Outcome)) (s : SpawnCall)
    : list (nat * BootEnd) :=
  match schedule with
  | [] => []
  | (i, o) :: rest =>
      match sp_boot s !! i with
      | Some (_, pc) =>
          match boot_end o pc with
          | Some e => (i, e) :: run_ends rest (spawn_resume i o s)
          | None => run_ends rest (spawn_resume i o s)
          end
      | None => []
      end
  end.

Definition half_ends : list (nat * BootEnd) := run_ends half_schedule (begin_spawn 2 fresh).

Definition half_result : SpawnResult :=
  default (mkSpawnResult false [] []) (spawn_result half_failed).


















Definition response (res : option (Value * Discovery.Link) * Master) : option Value :=
  fst <$> fst res.





(** The collaborators of a Windows host: named pipes, no socket files. *)
Definition windows : Collaborators := {|
  ensureInstanceNumber v := match v with VNum z => Z.to_nat z | _ => 1%nat end;
  runDir := "/run";
  getKey v := match v with VStr s => s | _ => "" end;
  ensureLocalDomainPath p := "//./pipe/" +:+ p;
  getPidFilePath name n := "/run/.pid";
  getInstanceDisplayName name n := name;
  isWin := true;
  spawnPid r := 1000 + Z.of_nat r;
|}.

End Examples.

(** * Properties *)

(** ** The crash/respawn state machine *)

Section LifecycleFacts.
Import WorkerLifecycle.

Lemma crashLoopRun_settled (fuel : nat) (w : WorkerMonitor) :
  childPid w = None → crashLoopRun fuel w = w.
Proof. destruct fuel; simpl; intros Hpid; [done | by rewrite Hpid]. Qed.

(** A child that always exits uses the whole respawn budget: whatever is left
    of it is spent in as many respawns, and the worker then sleeps. *)
Lemma crashLoopRun_budget (fuel : nat) :
  ∀ w : WorkerMonitor,
    is_Some (childPid w) →
    stopRequested w = false →
    (crashes (crashState w) ≤ maxRestarts w)%nat →
    (maxRestarts w - crashes (crashState w) < fuel)%nat →
    let w' := crashLoopRun fuel w in
    crashes (crashState w') = S (maxRestarts w)
    ∧ launches w' = (launches w + (maxRestarts w - crashes (crashState w)))%nat
    ∧ status (crashState w') = sleeping
    ∧ childPid w' = None.
Proof.
  induction fuel as [|fuel IH]; intros w [pid Hpid] Hstop Hle Hfuel; [lia|].
  simpl. rewrite Hpid. unfold onExit. rewrite Hstop.
  destruct (Nat.ltb_spec (maxRestarts w) (S (crashes (crashState w)))) as [Hout|Hin].
  - simpl. rewrite crashLoopRun_settled by done. simpl.
    repeat split; lia.
  - simpl.
    match goal with |- context [crashLoopRun fuel ?v] => specialize (IH v) end.
    simpl in IH. destruct IH as (Hc & Hl & Hs & Hp); [by eexists | done | lia | lia |].
    rewrite Hc, Hl, Hs, Hp. repeat split; lia.
Qed.

Lemma stop_keeps_crashes (w : WorkerMonitor) :
  crashes (crashState (fst (stop w))) = crashes (crashState w).
Proof. reflexivity. Qed.

Lemma restart_keeps_crashes (pid : Z) (w : WorkerMonitor) :
  crashes (crashState (fst (restart pid w))) = crashes (crashState w).
Proof. reflexivity. Qed.

Lemma exit_after_stop_keeps_crashes code signal up next (w : WorkerMonitor) :
  crashes (crashState (fst (onExit code signal up next (fst (stop w)))))
  = crashes (crashState w).
Proof. reflexivity. Qed.

(** C3. With [maxRestarts = 1] and a child that exits right after every
    launch, the worker is started (one launch), its first exit is crash #1
    and it is respawned (second launch), its second exit is crash #2, and
    from then on it has no child and is never launched again, however long
    one waits: [crashes = 2], status [sleeping]. Neither [stop()] (and the
    exit it causes) nor [restart()] raises the crash counter. *)
Theorem crash_loop_settles_after_two_crashes
    (template : Obj) (pid : Z) (fuel : nat) :
  (2 ≤ fuel)%nat →
  let started := fst (start pid (create template 1)) in
  let once := crashLoopRun 1 started in
  let settled := crashLoopRun fuel started in
  (launches started = 1%nat ∧ childPid started = Some pid
     ∧ crashes (crashState started) = 0%nat)
  ∧ (crashes (crashState once) = 1%nat ∧ launches once = 2%nat
     ∧ is_Some (childPid once))
  ∧ (crashes (crashState settled) = 2%nat ∧ launches settled = 2%nat
     ∧ childPid settled = None
     ∧ status (crashState settled) = sleeping
     ∧ status (crashState settled) ≠ running)
  ∧ (∀ (w : WorkerMonitor) (p : Z) code signal up next,
       (crashes (crashState (fst (stop w))) ≤ crashes (crashState w))%nat
       ∧ (crashes (crashState (fst (onExit code signal up next (fst (stop w)))))
          ≤ crashes (crashState w))%nat
       ∧ (crashes (crashState (fst (restart p w))) ≤ crashes (crashState w))%nat).
Proof.
  intros Hfuel started once settled.
  split; [done|]. split; [by repeat split; try eexists|].
  split.
  - pose proof (crashLoopRun_budget fuel started) as Hrun.
    destruct Hrun as (Hc & Hl & Hs & Hp); [by eexists | done | simpl; lia | simpl; lia |].
    subst settled. rewrite Hc, Hl, Hs, Hp. by repeat split.
  - intros w p code signal up next.
    rewrite stop_keeps_crashes, restart_keeps_crashes, exit_after_stop_keeps_crashes.
    lia.
Qed.

Lemma crash_loop_settles_after_two_crashes_witness :
  crashes (crashState
    (crashLoopRun 5 (fst (start 4242 (create Examples.options 1))))) = 2%nat.
Proof.
  pose proof (crash_loop_settles_after_two_crashes Examples.options 4242 5) as Hc.
  simpl in Hc. apply Hc. lia.
Defined.

End LifecycleFacts.

(** ** Control-channel dispatch *)

Section DispatchFacts.
Import ControlChannel.
Context {S : Type}.

(** A publish never sends anything back. *)
Lemma publish_never_replies (mm : Value → Property S) (data : Value) (s : S) :
  sends (fst (listener mm PUBLISH data s)) = [].
Proof.
  unfold listener. destruct data; try done.
  destruct (negb _); [done|].
  destruct (mm _) as [|call]; [done|].
  destruct (spread_args o) as [err|args]; [done|].
  by destruct (call args s).
Qed.

(** The dispatch itself does not look at the kind of message: the method
    runs, and leaves the orchestrator, the same on both. *)
Lemma publish_same_dispatch (mm : Value → Property S) (data : Value) (s : S) :
  snd (listener mm PUBLISH data s) = snd (listener mm REQUEST data s)
  ∧ List.filter (λ e, negb (is_send e)) (fst (listener mm PUBLISH data s))
    = List.filter (λ e, negb (is_send e)) (fst (listener mm REQUEST data s)).
Proof.
  unfold listener. destruct data; try done.
  destruct (negb _); [done|].
  destruct (mm _) as [|call]; [done|].
  destruct (spread_args o) as [err|args]; [done|].
  by destruct (call args s).
Qed.

(** C7. For a REQUEST that names a method: when the orchestrator has no such
    callable, a warning is logged and nothing is sent; when the method
    throws, the failure is logged as an error and nothing is sent; when it
    resolves, exactly one message is sent, the method name with the resolved
    result. A PUBLISH is dispatched the same way and never sends. *)
Theorem dispatch_replies_only_to_resolved_requests
    (mm : Value → Property S) (data method : Value) (d : Obj) (s : S) :
  names_method data method d →
  (mm method = NotCallable →
     fst (listener mm REQUEST data s)
       = [SetCurrentWorker; Log warn "Received API call, but it's not supported" method]
     ∧ sends (fst (listener mm REQUEST data s)) = []
     ∧ snd (listener mm REQUEST data s) = s)
  ∧ (∀ call args err s',
       mm method = Callable call → spread_args d = inr args →
       call args s = Throws err s' →
       fst (listener mm REQUEST data s)
         = [SetCurrentWorker; Log error "Failed to handle API call" method]
       ∧ sends (fst (listener mm REQUEST data s)) = [])
  ∧ (∀ call args resp s',
       mm method = Callable call → spread_args d = inr args →
       call args s = Resolves resp s' →
       sends (fst (listener mm REQUEST data s)) = [Send method resp]
       ∧ reply (fst (listener mm REQUEST data s)) = Some resp
       ∧ snd (listener mm REQUEST data s) = s')
  ∧ sends (fst (listener mm PUBLISH data s)) = []
  ∧ snd (listener mm PUBLISH data s) = snd (listener mm REQUEST data s).
Proof.
  intros (-> & Hm & Ht).
  repeat split.
  - unfold listener. rewrite Hm, Ht. simpl. by rewrite H.
  - unfold listener. rewrite Hm, Ht. simpl. by rewrite H.
  - unfold listener. rewrite Hm, Ht. simpl. by rewrite H.
  - unfold listener. rewrite Hm, Ht. simpl. by rewrite H, H0, H1.
  - unfold listener. rewrite Hm, Ht. simpl. by rewrite H, H0, H1.
  - unfold listener. rewrite Hm, Ht. simpl. by rewrite H, H0, H1.
  - unfold listener. rewrite Hm, Ht. simpl. by rewrite H, H0, H1.
  - unfold listener. rewrite Hm, Ht. simpl. by rewrite H, H0, H1.
  - apply publish_never_replies.
  - apply publish_same_dispatch.
Qed.

End DispatchFacts.

Lemma dispatch_replies_only_to_resolved_requests_witness :
  ControlChannel.sends
    (fst (ControlChannel.listener Examples.ping_object ControlChannel.REQUEST
            (VObj Examples.ping_message) 0%nat))
  = [ControlChannel.Send (VStr "ping") (VStr "pong")].
Proof.
  pose proof (dispatch_replies_only_to_resolved_requests
                Examples.ping_object (VObj Examples.ping_message) (VStr "ping")
                Examples.ping_message 0%nat) as Hd.
  destruct Hd as (_ & _ & Hres & _).
  - split; [reflexivity | split; reflexivity].
  - eapply Hres; reflexivity.
Defined.

(** ** Paths and keys *)

Section PathFacts.
Import Path Discovery.

Lemma append_cons (c : ascii) (s t : string) : String c s +:+ t = String c (s +:+ t).
Proof. reflexivity. Qed.

Lemma append_nil_l (s : string) : "" +:+ s = s.
Proof. reflexivity. Qed.

Lemma append_nil_r (s : string) : s +:+ "" = s.
Proof. induction s as [|c s IH]; [done|]. by rewrite append_cons, IH. Qed.

Lemma append_assoc (s t u : string) : (s +:+ t) +:+ u = s +:+ (t +:+ u).
Proof. induction s as [|c s IH]; [done|]. by rewrite !append_cons, IH. Qed.

Lemma length_append (s t : string) :
  String.length (s +:+ t) = (String.length s + String.length t)%nat.
Proof.
  induction s as [|c s IH]; [done|]. rewrite append_cons. simpl. by rewrite IH.
Qed.

Lemma segments_plain (k : string) :
  no_separator k = true → ∀ acc, segments acc k = [acc +:+ k].
Proof.
  induction k as [|c k IH]; intros Hk acc; simpl in *; [by rewrite append_nil_r|].
  apply andb_prop in Hk as [Hc Hk]. apply negb_true_iff in Hc. rewrite Hc.
  rewrite IH by done. by rewrite append_assoc.
Qed.

Lemma segments_snoc (a k : string) :
  no_separator k = true →
  ∀ acc, segments acc (a +:+ String "/" k) = segments acc a ++ [k].
Proof.
  intros Hk. induction a as [|c a IH]; intros acc.
  - rewrite append_nil_l. simpl. by rewrite segments_plain.
  - rewrite append_cons. simpl. destruct (Ascii.eqb c "/"); by rewrite IH.
Qed.

Lemma plain_name_spec (k : string) :
  plain_name k = true ↔ k ≠ "" ∧ k ≠ "." ∧ k ≠ ".." ∧ no_separator k = true.
Proof.
  unfold plain_name. rewrite !andb_true_iff, !negb_true_iff, !String.eqb_neq.
  tauto.
Qed.

Lemma normalize_snoc (b : bool) (l : list string) (k : string) :
  plain_name k = true →
  foldl (normalize_step b) [] (l ++ [k]) = foldl (normalize_step b) [] l ++ [k].
Proof.
  intros (H1 & H2 & H3 & _)%plain_name_spec. rewrite foldl_app. simpl.
  unfold normalize_step at 1.
  apply String.eqb_neq in H1, H2, H3. by rewrite H1, H2, H3.
Qed.

Lemma concat_snoc (l : list string) (k : string) :
  l ≠ [] → String.concat "/" (l ++ [k]) = String.concat "/" l +:+ String "/" k.
Proof.
  induction l as [|x l IH]; intros Hne; [done|].
  destruct l as [|y l]; [done|].
  change (String.concat "/" ((x :: y :: l) ++ [k]))
    with (x +:+ "/" +:+ String.concat "/" ((y :: l) ++ [k])).
  rewrite IH by done.
  change (String.concat "/" (x :: y :: l)) with (x +:+ "/" +:+ String.concat "/" (y :: l)).
  by rewrite !append_assoc.
Qed.

Lemma trailing_plain (a k : string) :
  no_separator k = true → k ≠ "" → trailing_separator (a +:+ k) = false.
Proof.
  intros Hk Hne.
  assert (trailing_separator k = false) as Hlast.
  { clear Hne. induction k as [|c k IH]; [done|]. simpl in Hk.
    apply andb_prop in Hk as [Hc Hk]. apply negb_true_iff in Hc.
    simpl. destruct k; [done | by apply IH]. }
  induction a as [|c a IH]; [done|]. rewrite append_cons.
  destruct (a +:+ k) eqn:Hak.
  - destruct a; [by rewrite append_nil_l in Hak | by rewrite append_cons in Hak].
  - exact IH.
Qed.

Lemma is_absolute_plain (k : string) :
  no_separator k = true → is_absolute k = false.
Proof. destruct k as [|c k]; [done|]. simpl. by intros [Hc%negb_true_iff _]%andb_prop. Qed.

(** Joining a plain name to a directory keeps it as the last segment. *)
Lemma normalize_plain (a k : string) :
  plain_name k = true →
  let joined := a +:+ String "/" k in
  normalize joined = String "/" k ∨ ∃ pre, normalize joined = pre +:+ String "/" k
  ∨ normalize joined = k.
Proof.
  intros Hplain joined. pose proof Hplain as (Hne & _ & _ & Hsep)%plain_name_spec.
  unfold normalize.
  assert (joined ≠ "") as Hj by (subst joined; by destruct a).
  apply String.eqb_neq in Hj. rewrite Hj.
  assert (trailing_separator joined = false) as ->.
  { subst joined. change (String "/" k) with ("/" +:+ k). rewrite <- append_assoc.
    by apply trailing_plain. }
  subst joined. rewrite segments_snoc by done. rewrite normalize_snoc by done.
  destruct (foldl _ [] (segments "" a)) as [|x l] eqn:Hs.
  - simpl. rewrite append_nil_r.
    destruct (is_absolute _); [by left | right; exists ""; by right].
  - right. rewrite concat_snoc by done. rewrite append_nil_r.
    eexists. left. by rewrite <- append_assoc.
Qed.

(** Joining a plain name to a directory keeps it as the last segment. *)
Lemma join_plain (dir k : string) :
  plain_name k = true →
  join dir k = k ∨ ∃ pre, join dir k = pre +:+ String "/" k.
Proof.
  intros Hplain. pose proof Hplain as (Hne & H2 & H3 & Hsep)%plain_name_spec.
  apply String.eqb_neq in Hne as Hne', H2, H3.
  unfold join. destruct (String.eqb_spec dir "") as [->|Hdir].
  - rewrite Hne'. left. unfold normalize. rewrite Hne'.
    rewrite is_absolute_plain by done.
    rewrite segments_plain by done. rewrite append_nil_l. simpl.
    unfold normalize_step. rewrite Hne', H2, H3. simpl.
    pose proof (trailing_plain "" k Hsep Hne) as Ht. rewrite append_nil_l in Ht.
    rewrite Ht. by rewrite ?append_nil_l, ?append_nil_r.
  - rewrite Hne'.
    assert (dir +:+ "/" +:+ k ≠ "") as Hj by (by destruct dir).
    apply String.eqb_neq in Hj. rewrite Hj.
    change (dir +:+ "/" +:+ k) with (dir +:+ String "/" k).
    destruct (normalize_plain dir k Hplain) as [->|[pre [->| ->]]].
    + right. by exists "".
    + right. by exists pre.
    + by left.
Qed.

Lemma last_segment_plain (b : string) :
  no_separator b = true → ∀ acc, last_segment acc b = acc +:+ b.
Proof.
  induction b as [|c b IH]; intros Hb acc; simpl in *; [by rewrite append_nil_r|].
  apply andb_prop in Hb as [Hc Hb]. apply negb_true_iff in Hc. rewrite Hc.
  rewrite IH by done. by rewrite append_assoc.
Qed.

Lemma last_segment_after (a b : string) :
  ∀ acc, last_segment acc (a +:+ String "/" b) = last_segment "" b.
Proof.
  induction a as [|c a IH]; intros acc.
  - by rewrite append_nil_l.
  - rewrite append_cons. simpl. destruct (Ascii.eqb c "/"); by rewrite IH.
Qed.

Lemma strip_suffix_app (k ext : string) : strip_suffix ext (k +:+ ext) = k.
Proof.
  induction k as [|c k IH].
  - rewrite append_nil_l. destruct ext as [|c ext]; [done|].
    cbn [strip_suffix]. by rewrite String.eqb_refl.
  - rewrite append_cons. cbn [strip_suffix].
    destruct (String.eqb_spec (String c (k +:+ ext)) ext) as [Heq|_]; [|by rewrite IH].
    apply (f_equal String.length) in Heq. cbn [String.length] in Heq.
    rewrite length_append in Heq. lia.
Qed.

Lemma no_separator_app (s t : string) :
  no_separator s = true → no_separator t = true → no_separator (s +:+ t) = true.
Proof.
  induction s as [|c s IH]; intros Hs Ht; [done|]. rewrite append_cons. simpl in *.
  apply andb_prop in Hs as [Hc Hs]. rewrite Hc. by apply IH.
Qed.

Lemma trim_separators_app (a : string) :
  trim_separators (a +:+ ".sock") = a +:+ ".sock".
Proof.
  induction a as [|c a IH]; [done|]. rewrite append_cons.
  cbn [trim_separators]. rewrite IH.
  destruct a; [by rewrite append_nil_l, andb_false_r | by rewrite append_cons, andb_false_r].
Qed.

Lemma longer_than_suffix (a ext : string) : a ≠ "" → a +:+ ext ≠ ext.
Proof.
  intros Hne Heq. apply (f_equal String.length) in Heq. rewrite length_append in Heq.
  destruct a; [done | simpl in Heq; lia].
Qed.

(** The key of a socket file named after a plain key is that key. *)
Lemma basename_join (dir k : string) :
  plain_name k = true → basename (join dir k +:+ ".sock") ".sock" = k.
Proof.
  intros Hplain. pose proof Hplain as (Hne & _ & _ & Hsep)%plain_name_spec.
  assert (join dir k ≠ "") as Hj.
  { destruct (join_plain dir k Hplain) as [->|[pre ->]]; [done | by destruct pre]. }
  assert (last_segment "" (join dir k +:+ ".sock") = k +:+ ".sock") as Hlast.
  { destruct (join_plain dir k Hplain) as [->|[pre ->]].
    - by rewrite last_segment_plain by (by apply no_separator_app).
    - rewrite append_assoc, append_cons. rewrite last_segment_after.
      by rewrite last_segment_plain by (by apply no_separator_app). }
  unfold basename. rewrite trim_separators_app, Hlast.
  destruct (String.eqb_spec (join dir k +:+ ".sock") ".sock") as [Heq|_];
    [by apply longer_than_suffix in Heq|].
  destruct (String.eqb_spec (k +:+ ".sock") ".sock") as [Heq|_];
    [by apply longer_than_suffix in Heq|].
  apply strip_suffix_app.
Qed.

End PathFacts.

(** ** Discovery *)

Section DiscoveryFacts.
Import Discovery.
Context `{Collaborators}.

Lemma foldl_probe_pid_refs (w : World) (l : list PidRef) :
  ∀ acc, fst (foldl (probe_pid w) acc l) = fst acc ++ omap (pid_ref w) l.
Proof.
  induction l as [|p l IH]; intros acc; simpl; [by rewrite app_nil_r|].
  rewrite IH. unfold probe_pid, pid_ref, startClient.
  destruct (connect w _) as [sock|code]; simpl.
  - by rewrite <- app_assoc.
  - by destruct (no_owner_code code).
Qed.

Lemma foldl_probe_socket_refs (w : World) (l : list SocketRef) :
  ∀ acc, fst (foldl (probe_socket w) acc l) = fst acc ++ omap (socket_ref w) l.
Proof.
  induction l as [|sr l IH]; intros acc; simpl; [by rewrite app_nil_r|].
  rewrite IH. unfold probe_socket, socket_ref, startClient, getState.
  destruct (connect w _) as [sock|code]; simpl.
  - destruct (answer w sock) as [state|]; simpl; [|done].
    destruct (adapt_state state); simpl; repeat case_match; simpl;
      by rewrite <- ?app_assoc.
  - by destruct (no_owner_code code).
Qed.

(** The references [getAll] returns: those of the PID records, then those of
    the socket files that no PID record accounts for. *)
Lemma getAll_refs (w : World) (c : Client) :
  fst (getAll w c)
  = omap (pid_ref w) (pidRecords w)
    ++ (if isWin then []
        else omap (socket_ref w) (differenceWith (getSocketFiles w) (pidRecords w))).
Proof.
  unfold getAll. destruct isWin.
  - by rewrite foldl_probe_pid_refs, app_nil_r.
  - by rewrite foldl_probe_socket_refs, foldl_probe_pid_refs.
Qed.





Lemma getState_disk (resp : option Value) (sock : nat) (c : Client) :
  disk (snd (getState resp sock c)) = disk c.
Proof. by destruct resp. Qed.







Lemma foldl_disk_eq {A B} (step : B * Client → A → B * Client) (l : list A) :
  (∀ acc a, disk (snd (step acc a)) = disk (snd acc)) →
  ∀ acc, disk (snd (foldl step acc l)) = disk (snd acc).
Proof.
  intros Hstep. induction l as [|a l IH]; intros acc; simpl; [done|].
  by rewrite IH, Hstep.
Qed.

Lemma getByName_disk (name : Value) (w : World) (c : Client) :
  disk (snd (getByName name w c)) = disk (snd (getAll w c)).
Proof.
  unfold getByName. destruct (getAll w c) as [refs c0].
  rewrite foldl_disk_eq; [done|].
  intros [acc c1] r. simpl.
  pose proof (getState_disk (answer w (ref_socket r)) (ref_socket r) c1) as Hd.
  destruct (getState _ _ c1) as [state c2]. simpl in Hd.
  repeat case_match; simpl; done.
Qed.

Lemma getByKey_disk (key : Value) (w : World) (c : Client) :
  disk (snd (getByKey key w c)) = disk (snd (getAll w c)).
Proof.
  unfold getByKey. destruct (getAll w c) as [refs c0].
  rewrite foldl_disk_eq; [done|].
  intros [acc c1] r. simpl.
  pose proof (getState_disk (answer w (ref_socket r)) (ref_socket r) c1) as Hd.
  destruct (getState _ _ c1) as [state c2]. simpl in Hd.
  repeat case_match; simpl; done.
Qed.


(** C10. [getInstanceByKey] never returns instances: whatever the run
    directory holds and whatever key is asked for, [getByKey] hands back one
    reference or [undefined], and calling [map] on that throws a TypeError. *)
Theorem getInstanceByKey_always_throws
    (key : Value) (keepAlive : bool) (w : World) (c : Client) :
  ∃ err, fst (getInstanceByKey key keepAlive w c) = inl err
         ∧ err_kind err = TypeError.
Proof.
  unfold getInstanceByKey. destruct (getByKey key w c) as [[r|] c1]; simpl;
    eexists; split; reflexivity.
Qed.

(** The sibling lookups, which get arrays, do return instances. *)
Lemma getAllInstances_returns (keepAlive : bool) (w : World) (c : Client) :
  ∃ l, fst (getAllInstances keepAlive w c) = inr l.
Proof.
  unfold getAllInstances. destruct (getAll w c) as [refs c1]. simpl. by eexists.
Qed.

End DiscoveryFacts.

(** ** One reference per live orchestrator *)

Section ReconcileFacts.
Import Discovery.
Context `{Collaborators}.









(** The socket path derived from a plain key has that key as its base
    name. *)
Lemma getSocketPath_key (k : string) :
  (∀ p, ensureLocalDomainPath p = p) →
  getKey (VStr k) = k → plain_name k = true →
  basename (getSocketPath (VStr k)) ".sock" = k.
Proof.
  intros Hid Hk Hplain. unfold getSocketPath. rewrite Hid, Hk.
  by apply basename_join.
Qed.

Lemma getSocketFiles_spec (w : World) (sr : SocketRef) :
  sr ∈ getSocketFiles w ↔
  socketPath sr ∈ globbed w ∧ skey sr = basename (socketPath sr) ".sock".
Proof.
  unfold getSocketFiles. rewrite list_elem_of_fmap. split.
  - intros (p & -> & Hp). done.
  - intros [Hp Hk]. exists (socketPath sr). split; [|done].
    destruct sr as [sp sk]. simpl in *. by subst sk.
Qed.



Section Keys.
Context (w : World).
Hypothesis Hid : ∀ p, ensureLocalDomainPath p = p.
Hypothesis Hkeys : ∀ pr, pr ∈ pidRecords w →
  getKey (VStr (pkey pr)) = pkey pr ∧ plain_name (pkey pr) = true.
Hypothesis Hdistinct : NoDup (map pkey (pidRecords w)).
Hypothesis Hglob : NoDup (globbed w).





End Keys.





End ReconcileFacts.




(** ** Arrays and the object store *)

Section StoreFacts.

Lemma foldl_max_ge (l : list Z) : ∀ a, a ≤ foldl Z.max a l.
Proof.
  induction l as [|x l IH]; intros a; simpl; [lia|].
  specialize (IH (Z.max a x)). lia.
Qed.

Lemma foldl_max_elem (l : list Z) : ∀ a x, x ∈ l → x ≤ foldl Z.max a l.
Proof.
  induction l as [|y l IH]; intros a x Hin; [by apply elem_of_nil in Hin|].
  apply elem_of_cons in Hin as [->|Hin]; simpl.
  - pose proof (foldl_max_ge l (Z.max a y)). lia.
  - by apply IH.
Qed.

(** [Math.max] is an upper bound of its arguments. *)
Lemma Math_max_ge (numbers : list Z) (x : Z) : x ∈ numbers → x ≤ Math_max numbers.
Proof.
  destruct numbers as [|n rest]; intros Hin; [by apply elem_of_nil in Hin|].
  apply elem_of_cons in Hin as [->|Hin]; simpl.
  - apply foldl_max_ge.
  - by apply foldl_max_elem.
Qed.

Lemma foldl_max_seqZ (k : nat) : ∀ a,
  foldl Z.max a (seqZ (Z.succ a) (Z.of_nat k)) = a + Z.of_nat k.
Proof.
  induction k as [|k IH]; intros a.
  - simpl. lia.
  - rewrite Nat2Z.inj_succ, seqZ_cons by lia. simpl.
    replace (Z.pred (Z.succ (Z.of_nat k))) with (Z.of_nat k) by lia.
    replace (Z.max a (Z.succ a)) with (Z.succ a) by lia.
    rewrite IH. lia.
Qed.

Lemma Math_max_seqZ (k : nat) :
  (0 < k)%nat → Math_max (seqZ 1 (Z.of_nat k)) = Z.of_nat k.
Proof.
  destruct k as [|k]; [lia|]. intros _.
  rewrite Nat2Z.inj_succ, seqZ_cons by lia. simpl.
  replace (Z.pred (Z.succ (Z.of_nat k))) with (Z.of_nat k) by lia.
  change 2 with (Z.succ 1). rewrite foldl_max_seqZ. lia.
Qed.

(** Sorting an array that is already ascending leaves it as it is. *)
Lemma sort_by_ascending (key : nat → Z) (l : list nat) :
  StronglySorted Z.lt (map key l) → sort_by key l = l.
Proof.
  induction l as [|x l IH]; intros Hs; [done|].
  simpl in Hs. apply StronglySorted_inv in Hs as [Hl Hx].
  unfold sort_by in *. simpl. rewrite IH by done.
  destruct l as [|y l]; [done|]. simpl.
  apply Forall_cons in Hx as [Hxy _].
  destruct (Z.leb_spec (key x - key y) 0); [done | lia].
Qed.

Lemma indexOf_elem (x : nat) (l : list nat) :
  x ∈ l → ∃ i : nat, indexOf x l = Z.of_nat i ∧ l !! i = Some x.
Proof.
  induction l as [|y l IH]; intros Hin; [by apply elem_of_nil in Hin|].
  simpl. destruct (Nat.eqb_spec y x) as [->|Hne].
  - by exists 0%nat.
  - apply elem_of_cons in Hin as [->|Hin]; [done|].
    destruct (IH Hin) as (i & Hi & Hl). rewrite Hi.
    destruct (Z.ltb_spec (Z.of_nat i) 0); [lia|].
    exists (S i). split; [lia | done].
Qed.

Lemma indexOf_not_elem (x : nat) (l : list nat) : x ∉ l → indexOf x l = -1.
Proof.
  induction l as [|y l IH]; intros Hin; [done|].
  apply not_elem_of_cons in Hin as [Hne Hin]. simpl.
  destruct (Nat.eqb_spec y x) as [->|_]; [done|].
  by rewrite IH.
Qed.

Lemma filter_neq_id (x : nat) (l : list nat) :
  x ∉ l → List.filter (λ y, negb (Nat.eqb y x)) l = l.
Proof.
  induction l as [|z l IH]; intros Hx; [done|].
  apply not_elem_of_cons in Hx as [Hne Hx]. simpl.
  destruct (Nat.eqb_spec z x); [congruence|]. simpl. by rewrite IH.
Qed.

Lemma delete_lookup_filter (x : nat) (l : list nat) :
  ∀ i : nat, NoDup l → l !! i = Some x →
  delete i l = List.filter (λ y, negb (Nat.eqb y x)) l.
Proof.
  induction l as [|y l IH]; intros i Hnd Hl; [done|].
  apply NoDup_cons in Hnd as [Hy Hnd].
  destruct i as [|i]; simpl in *.
  - injection Hl as ->. rewrite Nat.eqb_refl. simpl. by rewrite filter_neq_id.
  - destruct (Nat.eqb_spec y x) as [->|Hne].
    + exfalso. apply Hy. by eapply list_elem_of_lookup_2.
    + simpl. f_equal. by apply IH.
Qed.

(** [splice] at the index [indexOf] found removes exactly that element. *)
Lemma splice1_indexOf (x : nat) (l : list nat) :
  NoDup l → x ∈ l →
  splice1 (indexOf x l) l = List.filter (λ y, negb (Nat.eqb y x)) l.
Proof.
  intros Hnd Hin. unfold splice1.
  destruct (indexOf_elem x l Hin) as (i & -> & Hl).
  destruct (Z.ltb_spec (Z.of_nat i) 0); [lia|].
  pose proof (lookup_lt_Some _ _ _ Hl) as Hlt.
  rewrite Z.min_l by lia. rewrite Nat2Z.id.
  by apply delete_lookup_filter.
Qed.

End StoreFacts.

(** ** The START handler keeps the orchestrator well formed *)

Section SpawnFacts.
Context `{Collaborators}.

Lemma inum_modify_ne (m : Master) (r r' : nat) f :
  r ≠ r' → inum (modify_worker r f m) r' = inum m r'.
Proof. intros Hne. unfold inum, modify_worker. simpl. by rewrite lookup_alter_ne. Qed.

Lemma inum_modify_keep (m : Master) (r r' : nat) f :
  (∀ w, instanceNum (f w) = instanceNum w) →
  inum (modify_worker r f m) r' = inum m r'.
Proof.
  intros Hf. unfold inum, modify_worker. simpl.
  destruct (decide (r = r')) as [->|Hne]; [|by rewrite lookup_alter_ne].
  rewrite lookup_alter_eq. destruct (heap m !! r') as [w|]; simpl; [apply Hf | done].
Qed.

Lemma inum_modify_set (m : Master) (r : nat) (n : Z) :
  is_Some (heap m !! r) → inum (modify_worker r (set_instanceNum n) m) r = Some n.
Proof.
  intros [w Hw]. unfold inum, modify_worker. simpl.
  by rewrite lookup_alter_eq, Hw.
Qed.

Lemma heap_modify_is_Some (m : Master) (r r' : nat) f :
  is_Some (heap (modify_worker r f m) !! r') ↔ is_Some (heap m !! r').
Proof.
  unfold modify_worker. simpl.
  destruct (decide (r = r')) as [->|Hne]; [|by rewrite lookup_alter_ne].
  rewrite lookup_alter_eq. by rewrite fmap_is_Some.
Qed.

(** The numbers of the registered workers only depend on their own objects. *)
Lemma numbers_frame (m m' : Master) (l : list nat) :
  (∀ r, r ∈ l → inum m' r = inum m r) →
  map (inumZ m') l = map (inumZ m) l.
Proof.
  intros Hsame. apply map_ext_in. intros r Hr%list_elem_of_In.
  unfold inumZ. by rewrite Hsame.
Qed.

Lemma wf_frame (m m' : Master) :
  workerMonitors m' = workerMonitors m →
  (∀ r, r ∈ workerMonitors m → inum m' r = inum m r) →
  wf_master m → wf_master m'.
Proof.
  intros Hl Hsame [Hasc Hass]. split.
  - unfold ascending. rewrite Hl, (numbers_frame m m') by done. done.
  - intros r Hr. rewrite Hl in Hr. rewrite Hsame by done. by apply Hass.
Qed.

Lemma StronglySorted_lt_NoDup (l : list Z) : StronglySorted Z.lt l → NoDup l.
Proof.
  induction 1 as [|x l Hl IH Hx]; constructor; [|done].
  intros Hin. rewrite Forall_forall in Hx. specialize (Hx _ Hin). lia.
Qed.

Lemma ascending_NoDup (m : Master) : ascending m → NoDup (workerMonitors m).
Proof.
  unfold ascending. intros Hs%StronglySorted_lt_NoDup.
  by apply (NoDup_fmap_1 (inumZ m)).
Qed.

(** The allocated number is above every registered one. *)
Lemma allocated_above (m : Master) (r : nat) :
  r ∈ workerMonitors m → inumZ m r < allocated m.
Proof.
  intros Hr. unfold allocated.
  destruct (workerMonitors m) as [|x l] eqn:Hl; [by apply elem_of_nil in Hr|].
  change (0 <? length (x :: l))%nat with true. cbv iota.
  assert (inumZ m r ≤ Math_max (map (inumZ m) (x :: l))); [|lia].
  apply Math_max_ge. apply list_elem_of_fmap. by exists r.
Qed.

Lemma inumZ_confirmLive (m : Master) (r r' : nat) :
  inumZ (modify_worker r (λ w, fst (WorkerLifecycle.confirmLive w)) m) r' = inumZ m r'.
Proof. unfold inumZ. by rewrite inum_modify_keep. Qed.

Lemma allocated_confirmLive (m : Master) (r : nat) :
  allocated (modify_worker r (λ w, fst (WorkerLifecycle.confirmLive w)) m) = allocated m.
Proof.
  unfold allocated.
  change (workerMonitors (modify_worker r _ m)) with (workerMonitors m).
  destruct (0 <? length (workerMonitors m))%nat; [|done].
  do 2 f_equal. apply map_ext. intros r'. apply inumZ_confirmLive.
Qed.

(** What the START event does: the worker gets the allocated number and is
    pushed at the end of [workerMonitors]. *)
Lemma bootstrap_step_START (o : Outcome) (r : nat) (m : Master) (errs : list Error) :
  is_Some (heap m !! r) →
  ∃ m' name,
    bootstrap_step o r BPending m errs = (m', errs, BGetPidFile (allocated m) name)
    ∧ workerMonitors m' = workerMonitors m ++ [r]
    ∧ inum m' r = Some (allocated m)
    ∧ (∀ r', r' ≠ r → heap m' !! r' = heap m !! r')
    ∧ is_Some (heap m' !! r).
Proof.
  intros Hr. eexists _, _. split; [|split; [|split; [|split]]].
  - unfold bootstrap_step. fold (allocated (modify_worker r (λ w, fst (WorkerLifecycle.confirmLive w)) m)).
    rewrite allocated_confirmLive. reflexivity.
  - reflexivity.
  - simpl. change (inum (modify_worker r (set_instanceNum (allocated m))
             (modify_worker r (λ w, fst (WorkerLifecycle.confirmLive w)) m)) r = Some (allocated m)).
    apply inum_modify_set. by apply heap_modify_is_Some.
  - intros r' Hne. simpl. by rewrite !lookup_alter_ne.
  - simpl. rewrite !lookup_alter_eq. destruct Hr as [w ->]. by eexists.
Qed.

(** After START the handler only touches its own worker object, never its
    instance number, and leaves [workerMonitors] as it is. *)
Lemma bootstrap_step_later (o : Outcome) (r : nat) (pc : BootPc) (m : Master)
    (errs : list Error) :
  ascending m → pc ≠ BPending →
  let m' := fst (fst (bootstrap_step o r pc m errs)) in
  workerMonitors m' = workerMonitors m
  ∧ (∀ r', inum m' r' = inum m r')
  ∧ (∀ r', r' ≠ r → heap m' !! r' = heap m !! r')
  ∧ (∀ r', is_Some (heap m' !! r') ↔ is_Some (heap m !! r')).
Proof.
  intros Hasc Hpc.
  destruct pc as [|n name|n name pidFile| |json]; [done| | | |].
  - destruct o; simpl; by repeat split.
  - destruct o; simpl; [|by repeat split].
    split; [done|]. split; [|split].
    + intros r'. by apply inum_modify_keep.
    + intros r' Hne. by rewrite lookup_alter_ne.
    + intros r'. apply (heap_modify_is_Some m r r').
  - destruct o; [|simpl; by repeat split].
    unfold bootstrap_step.
    set (m1 := match data_get m r "pidFile" with
               | VStr p => with_files ({[p]} ∪ files m) m
               | _ => m
               end).
    assert (workerMonitors m1 = workerMonitors m ∧ heap m1 = heap m) as [Hl Hh].
    { subst m1. by destruct (data_get m r "pidFile"). }
    clearbody m1. simpl. unfold inum. simpl. rewrite Hh, Hl.
    split; [|by repeat split].
    apply sort_by_ascending.
    unfold ascending in Hasc. erewrite map_ext; [exact Hasc|].
    intros r'. unfold inumZ, inum. by rewrite Hh.
  - simpl. by repeat split.
Qed.

Lemma sum_list_map_insert {A} (f : A → nat) (l : list A) :
  ∀ (i : nat) (x y : A), l !! i = Some x →
  (sum_list (map f (<[i := y]> l)) + f x = sum_list (map f l) + f y)%nat.
Proof.
  induction l as [|a l IH]; intros i x y Hl; [done|].
  destruct i as [|i]; simpl in *.
  - injection Hl as ->. lia.
  - specialize (IH i x y Hl). lia.
Qed.

Lemma boot_ok_frame (m m' : Master) (F F' : Prop) (b : nat * BootPc) :
  heap m' !! fst b = heap m !! fst b →
  (fst b ∉ workerMonitors m → fst b ∉ workerMonitors m') →
  (F → F') →
  boot_ok m F b → boot_ok m' F' b.
Proof.
  intros Hh Hl HF. destruct b as [r pc]. unfold boot_ok, inum, data_get. simpl in *.
  rewrite Hh. destruct pc; try done.
  - intros [Hr Hs]. split; [by apply Hl | done].
  - intros (n & Hn & [Hj|Hf]); exists n; split; try done; [by left | right; by apply HF].
Qed.

Lemma toJSON_data (w : WorkerMonitor) (k : string) :
  k ≠ "monitor" → k ≠ "pid" → WorkerLifecycle.toJSON w !! k = data w !! k.
Proof.
  intros Hm Hp. unfold WorkerLifecycle.toJSON.
  by rewrite !lookup_insert_ne.
Qed.

Lemma get_insert_eq (o : Obj) (k : string) (v : Value) : get (<[k := v]> o) k = v.
Proof. unfold get. by rewrite lookup_insert_eq. Qed.

Lemma get_insert_ne (o : Obj) (k k' : string) (v : Value) :
  k ≠ k' → get (<[k := v]> o) k' = get o k'.
Proof. intros Hne. unfold get. by rewrite lookup_insert_ne. Qed.

Lemma get_VNum_lookup (o : Obj) (k : string) (n : Z) :
  get o k = VNum n → o !! k = Some (VNum n).
Proof. unfold get. destruct (o !! k); simpl; intros Heq; congruence. Qed.

(** Every step of a [spawn] call keeps its invariant. *)
Lemma spawn_step_inv (s s' : SpawnCall) :
  spawn_inv s → spawn_step s s' → spawn_inv s'.
Proof.
  intros (Hwf & Hnd & Hok & Herr) Hstep.
  destruct Hstep as [i o s r pc Hi Hpc].
  unfold spawn_resume. rewrite Hi.
  destruct (bootstrap_step o r pc (sp_master s) (sp_errors s)) as [[m' errs'] pc'] eqn:Hb.
  pose proof (Forall_lookup_1 _ _ _ _ Hok Hi) as Hself.
  unfold boot_ok in Hself. simpl in Hself.
  assert (∀ j b, j ≠ i → sp_boot s !! j = Some b → fst b ≠ r) as Hother.
  { intros j [r' pc''] Hji Hj Heq. simpl in Heq. subst r'.
    apply Hji. eapply NoDup_lookup; [exact Hnd| |];
      rewrite list_lookup_fmap; [by rewrite Hj | by rewrite Hi]. }
  assert (map fst (<[i := (r, pc')]> (sp_boot s)) = map fst (sp_boot s)) as Hfst.
  { change (fst <$> <[i := (r, pc')]> (sp_boot s) = fst <$> sp_boot s).
    rewrite list_fmap_insert. apply list_insert_id.
    by rewrite list_lookup_fmap, Hi. }
  pose proof (sum_list_map_insert (λ b, settled_count (snd b)) _ i _ (r, pc') Hi) as Hsum.
  simpl in Hsum.
  destruct Hwf as [Hasc Hass].
  assert (pc = BPending ∨ pc ≠ BPending) as [->|Hstarted]
    by (destruct pc; [by left | by right..]).
  - (* START *)
    destruct Hself as [Hfresh Hheap]. simpl in Hfresh, Hheap.
    destruct (bootstrap_step_START o r (sp_master s) (sp_errors s) Hheap)
      as (m2 & name & Heq & Hl & Hn & Hframe & Hsome).
    rewrite Heq in Hb. injection Hb as <- <- <-.
    assert (∀ r', r' ∈ workerMonitors (sp_master s) → inum m2 r' = inum (sp_master s) r') as Hsame.
    { intros r' Hr'. unfold inum. rewrite Hframe; [done|]. by intros ->. }
    split; [|split; [|split]]; simpl.
    + split.
      * unfold ascending. rewrite Hl, map_app. simpl.
        apply StronglySorted_app_2.
        -- intros x1 x2 (r1 & -> & Hr1)%list_elem_of_fmap ->%list_elem_of_singleton.
           unfold inumZ at 2. rewrite Hn. simpl.
           unfold inumZ. rewrite Hsame by done. by apply allocated_above.
        -- by rewrite (numbers_frame (sp_master s) m2).
        -- repeat constructor.
      * intros r' Hr'. rewrite Hl in Hr'. apply elem_of_app in Hr' as [Hr'|Hr'].
        -- rewrite Hsame by done. by apply Hass.
        -- apply list_elem_of_singleton in Hr' as ->. by rewrite Hn.
    + by rewrite Hfst.
    + apply Forall_lookup_2. intros j b Hj.
      destruct (decide (j = i)) as [->|Hji].
      * rewrite list_lookup_insert_eq in Hj by (by eapply lookup_lt_Some).
        injection Hj as <-. exact Hn.
      * rewrite list_lookup_insert_ne in Hj by done.
        apply (boot_ok_frame (sp_master s) m2 (sp_errors s ≠ []) (sp_errors s ≠ [])); try done.
        -- apply Hframe. by eapply Hother.
        -- rewrite Hl. intros Hnot [Hin|Hin%list_elem_of_singleton]%elem_of_app; [done|].
           by eapply Hother.
        -- by eapply Forall_lookup_1.
    + simpl in Hsum. lia.
  - (* a later await *)
    pose proof (bootstrap_step_later o r pc (sp_master s) (sp_errors s) Hasc Hstarted)
      as (Hl & Hn & Hframe & Hsome).
    rewrite Hb in Hl, Hn, Hframe, Hsome. simpl in Hl, Hn, Hframe, Hsome.
    assert (errs' = sp_errors s ∨ ∃ e, errs' = sp_errors s ++ [e] ∧ ∃ j, pc' = BDone j) as Herrs.
    { destruct pc, o; simpl in Hb; injection Hb as <- <- <-; eauto. }
    assert (sp_errors s ≠ [] → errs' ≠ []) as Hmono.
    { destruct Herrs as [->|(e & -> & _)]; [done|]. intros _. by destruct (sp_errors s). }
    split; [|split; [|split]]; simpl.
    + apply (wf_frame (sp_master s)); [done | by intros | done].
    + by rewrite Hfst.
    + apply Forall_lookup_2. intros j b Hj.
      destruct (decide (j = i)) as [->|Hji].
      * rewrite list_lookup_insert_eq in Hj by (by eapply lookup_lt_Some).
        injection Hj as <-.
        destruct pc as [|n name|n name pidFile| |json]; [done| | | |done].
        -- simpl in Hself. destruct o; simpl in Hb; injection Hb as <- <- <-.
           ++ done.
           ++ exists n. split; [done|]. right. by destruct (sp_errors s).
        -- simpl in Hself. destruct o; simpl in Hb; injection Hb as <- <- <-.
           ++ exists n. split; [rewrite Hn; exact Hself|].
              unfold inum in Hself. unfold data_get. simpl. rewrite lookup_alter_eq.
              destruct (heap (sp_master s) !! r) as [w|]; [|discriminate Hself]. simpl.
              rewrite !get_insert_ne by done. apply get_insert_eq.
           ++ exists n. split; [done|]. right. by destruct (sp_errors s).
        -- destruct Hself as (n & Hself & Hdata).
           destruct o; simpl in Hb; injection Hb as <- <- <-;
             (exists n; split; [rewrite Hn; exact Hself|]).
           ++ left. unfold toJSON. simpl.
              assert (heap (match data_get (sp_master s) r "pidFile" with
                            | VStr p => with_files ({[p]} ∪ files (sp_master s)) (sp_master s)
                            | _ => sp_master s
                            end) = heap (sp_master s)) as -> by (by case_match).
              unfold data_get in Hdata.
              destruct (heap (sp_master s) !! r) as [w|]; [|done].
              rewrite toJSON_data by done. by apply get_VNum_lookup.
           ++ right. by destruct (sp_errors s).
      * rewrite list_lookup_insert_ne in Hj by done.
        apply (boot_ok_frame (sp_master s) m' (sp_errors s ≠ []) (errs' ≠ [])); try done.
        -- apply Hframe. by eapply Hother.
        -- by rewrite Hl.
        -- by eapply Forall_lookup_1.
    + assert (settled_count pc = 0%nat) as Hz by (by destruct pc).
      destruct Herrs as [->|(e & -> & j & ->)].
      * lia.
      * rewrite length_app. simpl in *. lia.
Qed.

Lemma start_workers_frame (refs : list nat) :
  ∀ m, let m' := foldl (λ m r, start_worker r m) m refs in
    workerMonitors m' = workerMonitors m
    ∧ (∀ r, inum m' r = inum m r)
    ∧ (∀ r, is_Some (heap m' !! r) ↔ is_Some (heap m !! r))
    ∧ nextRef m' = nextRef m.
Proof.
  induction refs as [|r0 refs IH]; intros m; simpl; [done|].
  destruct (IH (start_worker r0 m)) as (Hl & Hn & Hs & Hx).
  rewrite Hl, Hx. split; [done|]. split; [|split; [|done]].
  - intros r. rewrite Hn. unfold start_worker.
    change (inum (modify_worker r0 (λ w, fst (WorkerLifecycle.start (spawnPid r0) w)) m) r
            = inum m r).
    by apply inum_modify_keep.
  - intros r. rewrite Hs. unfold start_worker.
    apply (heap_modify_is_Some m r0 r).
Qed.

Lemma new_workers_spec (n : nat) (m : Master) :
  let refs := fst (new_workers n m) in
  let m' := snd (new_workers n m) in
  refs = seq (nextRef m) n
  ∧ workerMonitors m' = workerMonitors m
  ∧ socket m' = socket m
  ∧ nextRef m' = (nextRef m + n)%nat
  ∧ (∀ r, r ∉ refs → heap m' !! r = heap m !! r)
  ∧ (∀ r, r ∈ refs → is_Some (heap m' !! r)).
Proof.
  unfold new_workers. simpl. repeat split.
  - intros r. generalize (seq (nextRef m) n). intros l Hr.
    induction l as [|x l IH]; simpl; [done|].
    apply not_elem_of_cons in Hr as [Hne Hr].
    rewrite lookup_insert_ne by done. by apply IH.
  - intros r. generalize (seq (nextRef m) n). intros l Hr.
    induction l as [|x l IH]; simpl; [by apply elem_of_nil in Hr|].
    destruct (decide (x = r)) as [->|Hne]; [by rewrite lookup_insert_eq|].
    rewrite lookup_insert_ne by done. apply IH.
    by apply elem_of_cons in Hr as [->|Hr].
Qed.

(** What [spawn] has done when it starts to wait for its bootstraps: the
    requested workers exist, none is registered yet, and the workers that
    were there are untouched. *)
Lemma spawn_begin_spec (options : Obj) (bind : Outcome) (m : Master) (s : SpawnCall) :
  store_ok m →
  spawn_begin options bind m = inr s →
  let N := ensureInstanceNumber (get options "instances") in
  sp_errors s = []
  ∧ sp_boot s = map (λ r, (r, BPending)) (seq (nextRef m) N)
  ∧ workerMonitors (sp_master s) = workerMonitors m
  ∧ (∀ r, r ∈ workerMonitors m → inum (sp_master s) r = inum m r)
  ∧ (∀ r, r ∈ seq (nextRef m) N → is_Some (heap (sp_master s) !! r)).
Proof.
  intros Hstore Hbegin N. unfold spawn_begin in Hbegin. fold N in Hbegin.
  destruct (new_workers_spec N m) as (Hrefs & Hl & Hsock & Hnext & Hold & Hnew).
  destruct (new_workers N m) as [refs m1]. simpl in *. subst refs.
  assert (∀ m2, workerMonitors m2 = workerMonitors m1 → heap m2 = heap m1 →
            s = mkSpawn (foldl (λ m r, start_worker r m) m2 (seq (nextRef m) N)) []
                        (map (λ r, (r, BPending)) (seq (nextRef m) N)) →
            sp_errors s = []
            ∧ sp_boot s = map (λ r, (r, BPending)) (seq (nextRef m) N)
            ∧ workerMonitors (sp_master s) = workerMonitors m
            ∧ (∀ r, r ∈ workerMonitors m → inum (sp_master s) r = inum m r)
            ∧ (∀ r, r ∈ seq (nextRef m) N → is_Some (heap (sp_master s) !! r))) as Hgen.
  { intros m2 Hl2 Hh2 ->. simpl.
    destruct (start_workers_frame (seq (nextRef m) N) m2) as (Hl3 & Hn3 & Hs3 & _).
    split; [done|]. split; [done|]. split; [by rewrite Hl3, Hl2|]. split.
    - intros r Hr. rewrite Hn3. unfold inum. rewrite Hh2, Hold; [done|].
      intros Hin%elem_of_seq. specialize (Hstore r Hr). lia.
    - intros r Hr. rewrite Hs3, Hh2. by apply Hnew. }
  destruct (socket m1) as [sock|].
  - injection Hbegin as <-. by apply (Hgen m1).
  - destruct bind as [|err]; [|done]. injection Hbegin as <-.
    by apply (Hgen (with_files ({[getSocketPath (get (templateData m1) "name")]} ∪ files m1)
                      (with_socket (Some (getSocketPath (get (templateData m1) "name")))
                                   true m1))).
Qed.

(** A rejected lazy bind rejects [spawn] as a whole. *)
Lemma spawn_begin_bind_rejected (options : Obj) (err : Error) (m : Master) :
  socket m = None → spawn_begin options (Rejected err) m = inl err.
Proof.
  intros Hsock. unfold spawn_begin.
  destruct (new_workers_spec (ensureInstanceNumber (get options "instances")) m)
    as (_ & _ & Hs & _).
  destruct (new_workers _ m) as [refs m1]. simpl in *. by rewrite Hs, Hsock.
Qed.

Lemma spawn_begin_inv (options : Obj) (bind : Outcome) (m : Master) (s : SpawnCall) :
  wf_master m → store_ok m →
  spawn_begin options bind m = inr s →
  spawn_inv s.
Proof.
  intros Hwf Hstore Hbegin.
  destruct (spawn_begin_spec options bind m s Hstore Hbegin) as (He & Hb & Hl & Hn & Hh).
  split; [|split; [|split]].
  - by apply (wf_frame m).
  - rewrite Hb, map_map. simpl. rewrite map_id. apply NoDup_seq.
  - rewrite Hb. apply Forall_forall. intros b (r & -> & Hr)%list_elem_of_fmap.
    split; simpl; [|by apply Hh].
    rewrite Hl. intros Hin. specialize (Hstore r Hin).
    apply elem_of_seq in Hr. lia.
  - rewrite He. simpl. lia.
Qed.

Lemma spawn_run_inv (s s' : SpawnCall) :
  spawn_inv s → rtc spawn_step s s' → spawn_inv s'.
Proof. induction 2; eauto using spawn_step_inv. Qed.

Lemma bootstrap_step_started (o : Outcome) (r : nat) (pc : BootPc) (m : Master)
    (errs : list Error) :
  boot_settled pc = None →
  boot_started (r, snd (bootstrap_step o r pc m errs)) = true.
Proof. destruct pc, o; done. Qed.

Lemma started_refs_insert (l : list (nat * BootPc)) (i r : nat) (pc pc' : BootPc) :
  l !! i = Some (r, pc) → boot_started (r, pc') = true →
  map fst (List.filter boot_started (<[i := (r, pc')]> l))
  ≡ₚ (if boot_started (r, pc) then [] else [r])
     ++ map fst (List.filter boot_started l).
Proof.
  intros Hl Hs.
  rewrite insert_take_drop by (by eapply lookup_lt_Some).
  rewrite <- (take_drop_middle l i (r, pc) Hl) at 3.
  rewrite !List.filter_app, !map_app. simpl. rewrite Hs. simpl.
  destruct (boot_started (r, pc)); simpl; [done|].
  by rewrite Permutation_middle.
Qed.

Lemma seqZ_snoc_numbers (k : nat) :
  Math_max (if (0 <? k)%nat then seqZ 1 (Z.of_nat k) else [0]) + 1 = 1 + Z.of_nat k.
Proof.
  destruct k as [|k]; [done|].
  change (0 <? S k)%nat with true. cbv iota.
  rewrite Math_max_seqZ by lia. lia.
Qed.

(** On a fresh orchestrator every step of the call keeps the registered
    workers numbered [1..k]. *)
Lemma spawn_step_fresh (s s' : SpawnCall) :
  spawn_inv s → fresh_inv s → spawn_step s s' → fresh_inv s'.
Proof.
  intros (Hwf & Hnd & Hok & Herr) [Hperm Hnums] Hstep.
  destruct Hstep as [i o s r pc Hi Hpc].
  unfold spawn_resume. rewrite Hi.
  pose proof (bootstrap_step_started o r pc (sp_master s) (sp_errors s) Hpc) as Hst.
  destruct (bootstrap_step o r pc (sp_master s) (sp_errors s)) as [[m' errs'] pc'] eqn:Hb.
  simpl in Hst.
  pose proof (started_refs_insert _ i r pc pc' Hi Hst) as Hins.
  pose proof (Forall_lookup_1 _ _ _ _ Hok Hi) as Hself.
  unfold boot_ok in Hself. simpl in Hself.
  destruct Hwf as [Hasc Hass].
  assert (pc = BPending ∨ pc ≠ BPending) as [->|Hstarted]
    by (destruct pc; [by left | by right..]).
  - destruct Hself as [Hfresh Hheap].
    destruct (bootstrap_step_START o r (sp_master s) (sp_errors s) Hheap)
      as (m2 & name & Heq & Hl & Hn & Hframe & Hsome).
    rewrite Heq in Hb. injection Hb as <- <- <-.
    split; simpl.
    + rewrite Hl, Hins. simpl. rewrite Hperm.
      by rewrite <- Permutation_cons_append.
    + rewrite Hl, map_app, length_app. simpl.
      rewrite (numbers_frame (sp_master s) m2).
      * rewrite Hnums. unfold inumZ at 1. rewrite Hn. simpl.
        replace (length (workerMonitors (sp_master s)) + 1)%nat
          with (S (length (workerMonitors (sp_master s)))) by lia.
        rewrite seqZ_S. f_equal. f_equal.
        unfold allocated. rewrite Hnums. apply seqZ_snoc_numbers.
      * intros r' Hr'. unfold inum. rewrite Hframe; [done|]. by intros ->.
  - pose proof (bootstrap_step_later o r pc (sp_master s) (sp_errors s) Hasc Hstarted)
      as (Hl & Hn & Hframe & Hsome).
    rewrite Hb in Hl, Hn, Hframe, Hsome. simpl in Hl, Hn, Hframe, Hsome.
    assert (boot_started (r, pc) = true) as Hwas by (by destruct pc).
    rewrite Hwas in Hins. simpl in Hins.
    split; simpl.
    + by rewrite Hl, Hins.
    + rewrite Hl, (numbers_frame (sp_master s) m'); [done|]. by intros.
Qed.

Lemma spawn_run_fresh (s s' : SpawnCall) :
  spawn_inv s → fresh_inv s → rtc spawn_step s s' → spawn_inv s' ∧ fresh_inv s'.
Proof.
  intros Hinv Hfresh Hrun. induction Hrun as [|s1 s2 s3 Hstep Hrun IH]; [done|].
  apply IH; [by eapply spawn_step_inv | by eapply spawn_step_fresh].
Qed.

(** [Promise.all] resolves exactly when every promise has, with one value per
    promise, in the promises' order. *)
Lemma Promise_all_Some {A} (ps : list (option A)) (vs : list A) :
  Promise_all ps = Some vs ↔ ps = map Some vs.
Proof.
  unfold Promise_all. revert vs. induction ps as [|p ps IH]; intros vs; simpl.
  - split; [intros [= <-]; done | by destruct vs].
  - destruct p as [a|]; simpl.
    + destruct (mapM id ps) as [l|] eqn:Hl; simpl.
      * split; [intros [= <-]; simpl; f_equal; by apply IH|].
        destruct vs as [|v vs]; [done|]. simpl. intros [= -> Hps].
        apply IH in Hps. by injection Hps as ->.
      * split; [done|]. destruct vs as [|v vs]; [done|]. simpl. intros [= -> Hps].
        by apply IH in Hps.
    + split; [done|]. by destruct vs.
Qed.

Lemma Promise_all_None {A} (ps : list (option A)) :
  Promise_all ps = None ↔ ∃ i, ps !! i = Some None.
Proof.
  unfold Promise_all. induction ps as [|p ps IH]; simpl.
  - split; [done|]. by intros [i Hi].
  - destruct p as [a|]; simpl.
    + destruct (mapM id ps) as [l|] eqn:Hl; simpl.
      * split; [done|]. intros [[|i] Hi]; [done|]. simpl in Hi.
        destruct IH as [_ IH]. by specialize (IH (ex_intro _ i Hi)).
      * split; [|done]. intros _. destruct IH as [IH _].
        destruct (IH eq_refl) as [i Hi]. by exists (S i).
    + split; [|done]. intros _. by exists 0%nat.
Qed.

Lemma spawn_step_refs (s s' : SpawnCall) :
  spawn_step s s' → map fst (sp_boot s') = map fst (sp_boot s).
Proof.
  destruct 1 as [i o s r pc Hi Hpc]. unfold spawn_resume. rewrite Hi.
  destruct (bootstrap_step _ _ _ _ _) as [[m' errs'] pc']. simpl.
  change (fst <$> <[i := (r, pc')]> (sp_boot s) = fst <$> sp_boot s).
  rewrite list_fmap_insert. apply list_insert_id.
  by rewrite list_lookup_fmap, Hi.
Qed.

Lemma spawn_run_refs (s s' : SpawnCall) :
  rtc spawn_step s s' → map fst (sp_boot s') = map fst (sp_boot s).
Proof.
  induction 1 as [|s1 s2 s3 Hstep Hrun IH]; [done|].
  rewrite IH. by apply spawn_step_refs.
Qed.

(** While a bootstrap is unresolved the call can go on. *)
Lemma spawn_progress (s : SpawnCall) :
  spawn_result s = None → ∃ s', spawn_step s s'.
Proof.
  unfold spawn_result. intros Hres.
  destruct (Promise_all _) as [added|] eqn:Hall; [done|].
  apply Promise_all_None in Hall as [i Hi].
  rewrite list_lookup_fmap in Hi.
  destruct (sp_boot s !! i) as [[r pc]|] eqn:Hb; [|done].
  simpl in Hi. injection Hi as Hi.
  exists (spawn_resume i Resolved s). by econstructor.
Qed.

(** Every step uses up one of the awaits a bootstrap has left. *)
Lemma spawn_step_decreases (s s' : SpawnCall) :
  spawn_step s s' → (remaining s' < remaining s)%nat.
Proof.
  destruct 1 as [i o s r pc Hi Hpc]. unfold spawn_resume, remaining. rewrite Hi.
  destruct (bootstrap_step o r pc (sp_master s) (sp_errors s)) as [[m' errs'] pc'] eqn:Hb.
  simpl.
  pose proof (sum_list_map_insert (λ b, steps_left (snd b)) _ i _ (r, pc') Hi) as Hsum.
  simpl in Hsum.
  assert (steps_left pc' < steps_left pc)%nat; [|lia].
  destruct pc, o; simpl in Hb; injection Hb as <- <- <-; simpl; try lia; done.
Qed.

Lemma spawn_run_bounded (n : nat) (s s' : SpawnCall) :
  nsteps spawn_step n s s' → (n + remaining s' ≤ remaining s)%nat.
Proof.
  induction 1 as [|n s1 s2 s3 Hstep Hrun IH]; [lia|].
  apply spawn_step_decreases in Hstep. lia.
Qed.

Lemma remaining_begin (l : list nat) (m : Master) :
  remaining (mkSpawn m [] (map (λ r, (r, BPending)) l)) = (4 * length l)%nat.
Proof.
  unfold remaining. simpl. induction l as [|r l IH]; simpl in *; [done|]. lia.
Qed.

Lemma settled_count_le (l : list (nat * BootPc)) :
  (sum_list (map (λ b, settled_count (snd b)) l) ≤ length l)%nat.
Proof.
  induction l as [|[r pc] l IH]; simpl; [done|]. destruct pc; simpl; lia.
Qed.

(** The shape of a [spawn] call, at any point of its run. *)
Lemma spawn_call_shape
    (options : Obj) (bind : Outcome) (m : Master) (s0 s : SpawnCall) :
  wf_master m → store_ok m →
  spawn_begin options bind m = inr s0 →
  rtc spawn_step s0 s →
  let N := ensureInstanceNumber (get options "instances") in
  (is_Some (spawn_result s)
     ↔ Forall (λ b, is_Some (boot_settled (snd b))) (sp_boot s))
  ∧ (spawn_result s = None → ∃ s', spawn_step s s')
  ∧ (∀ n s', nsteps spawn_step n s0 s' → (n ≤ 4 * N)%nat)
  ∧ ∀ res, spawn_result s = Some res →
      length (added res) = N
      ∧ map Some (added res) = map (λ b, boot_settled (snd b)) (sp_boot s)
      ∧ errors res = sp_errors s
      ∧ (length (errors res) ≤ N)%nat
      ∧ ok res = bool_decide (length (errors res) < N)%nat.
Proof.
  intros Hwf Hstore Hbegin Hrun N.
  pose proof (spawn_begin_inv _ _ _ _ Hwf Hstore Hbegin) as Hinv0.
  pose proof (spawn_run_inv _ _ Hinv0 Hrun) as (_ & _ & _ & Herr).
  destruct (spawn_begin_spec _ _ _ _ Hstore Hbegin) as (He0 & Hb0 & _).
  fold N in Hb0.
  assert (length (sp_boot s) = N) as Hlen.
  { rewrite <- (length_map fst), (spawn_run_refs _ _ Hrun), length_map, Hb0.
    by rewrite length_map, length_seq. }
  split; [|split; [|split]].
  - unfold spawn_result. split.
    + intros [res Hres]. destruct (Promise_all _) as [added|] eqn:Hall; [|done].
      apply Promise_all_Some in Hall.
      apply Forall_lookup_2. intros i b Hi.
      apply (f_equal (λ l, l !! i)) in Hall.
      rewrite !list_lookup_fmap, Hi in Hall. simpl in Hall.
      destruct (added !! i); simpl in Hall; [|done]. injection Hall as ->. by eexists.
    + intros Hall. destruct (Promise_all _) as [added|] eqn:Hp; [by eexists|].
      apply Promise_all_None in Hp as [i Hi]. rewrite list_lookup_fmap in Hi.
      destruct (sp_boot s !! i) as [b|] eqn:Hb; [|done]. simpl in Hi.
      pose proof (Forall_lookup_1 _ _ _ _ Hall Hb) as [j Hj]. congruence.
  - apply spawn_progress.
  - intros n s' Hn. apply spawn_run_bounded in Hn.
    destruct s0 as [m0 e0 b0]. simpl in *. subst e0 b0.
    rewrite remaining_begin, length_seq in Hn. lia.
  - intros res Hres. unfold spawn_result in Hres.
    destruct (Promise_all _) as [added|] eqn:Hall; [|done].
    simpl in Hres. injection Hres as <-. simpl.
    apply Promise_all_Some in Hall.
    assert (length added = N) as Hadded.
    { rewrite <- Hlen. apply (f_equal length) in Hall.
      by rewrite !length_map in Hall. }
    pose proof (settled_count_le (sp_boot s)) as Hle.
    split; [done|]. split; [done|]. split; [done|]. split; [lia|].
    rewrite Hlen.
    destruct (Nat.ltb_spec (length (sp_errors s)) N);
      [by rewrite bool_decide_eq_true_2 | by rewrite bool_decide_eq_false_2 by lia].
Qed.

Lemma newMaster_wf (template : Obj) (budget : nat) (disk : gset string) :
  wf_master (newMaster template budget disk) ∧ store_ok (newMaster template budget disk).
Proof.
  split; [split|].
  - constructor.
  - intros r Hr. by apply elem_of_nil in Hr.
  - intros r Hr. by apply elem_of_nil in Hr.
Qed.

Lemma filter_started_all (l : list (nat * BootPc)) :
  Forall (λ b, is_Some (boot_settled (snd b))) l →
  List.filter boot_started l = l.
Proof.
  induction 1 as [|[r pc] l [j Hj] Hl IH]; [done|].
  simpl. rewrite IH. by destruct pc.
Qed.

Lemma filter_started_none (l : list nat) :
  List.filter boot_started (map (λ r, (r, BPending)) l) = [].
Proof. by induction l. Qed.

(** C4 (amended). Let [N >= 1] be an instance count that
    [ensureInstanceNumber] keeps as it is. On a fresh orchestrator, once
    [spawn({instances: N})] has returned: [added] has [N] entries, one per
    requested worker; the requested workers are exactly the registered
    ones; read in array order their instance numbers are [1, 2, ..., N], so
    over the requested workers they are pairwise distinct and make up
    [{1..N}]; when no bootstrap failed, each entry of [added] carries its
    worker's number. On any orchestrator, START gives a new worker one more
    than the largest number registered ([1] when none is), which is above
    every number a registered sibling holds. *)
Theorem spawn_fresh_numbers_1_to_N
    (template : Obj) (budget : nat) (disk : gset string) (N : nat)
    (options : Obj) (bind : Outcome) (s0 s : SpawnCall) (res : SpawnResult) :
  (1 ≤ N)%nat →
  get options "instances" = VNum (Z.of_nat N) →
  ensureInstanceNumber (VNum (Z.of_nat N)) = N →
  spawn_begin options bind (newMaster template budget disk) = inr s0 →
  rtc spawn_step s0 s →
  spawn_result s = Some res →
  let m := sp_master s in
  length (added res) = N
  ∧ map fst (sp_boot s) = seq 0 N
  ∧ workerMonitors m ≡ₚ seq 0 N
  ∧ map (inumZ m) (workerMonitors m) = seqZ 1 (Z.of_nat N)
  ∧ map (inumZ m) (seq 0 N) ≡ₚ seqZ 1 (Z.of_nat N)
  ∧ NoDup (map (inumZ m) (seq 0 N))
  ∧ (sp_errors s = [] →
     ∀ (i : nat) json, added res !! i = Some json →
       ∃ n, inum m i = Some n ∧ json !! "instanceNum" = Some (VNum n))
  ∧ ∀ (m1 : Master) (r : nat) (o : Outcome) (errs : list Error),
      is_Some (heap m1 !! r) →
      inum (fst (fst (bootstrap_step o r BPending m1 errs))) r = Some (allocated m1)
      ∧ (workerMonitors m1 = [] → allocated m1 = 1)
      ∧ ∀ r', r' ∈ workerMonitors m1 → inumZ m1 r' < allocated m1.
Proof.
  intros _ Hopt Hnorm Hbegin Hrun Hres m.
  assert (ensureInstanceNumber (get options "instances") = N) as HN
    by (by rewrite Hopt).
  destruct (newMaster_wf template budget disk) as [Hwf Hstore].
  pose proof (spawn_begin_inv _ _ _ _ Hwf Hstore Hbegin) as Hinv0.
  destruct (spawn_begin_spec _ _ _ _ Hstore Hbegin) as (He0 & Hb0 & Hl0 & _).
  rewrite HN in Hb0. simpl in Hb0, Hl0.
  assert (fresh_inv s0) as Hfresh0.
  { split; rewrite Hl0; [|done]. by rewrite Hb0, filter_started_none. }
  destruct (spawn_run_fresh _ _ Hinv0 Hfresh0 Hrun) as [Hinv [Hperm Hnums]].
  destruct (spawn_call_shape _ _ _ _ _ Hwf Hstore Hbegin Hrun)
    as (Hall & _ & _ & Hshape).
  destruct (Hshape res Hres) as (Hlen & Hadded & _).
  rewrite HN in Hlen.
  assert (map fst (sp_boot s) = seq 0 N) as Hrefs.
  { rewrite (spawn_run_refs _ _ Hrun), Hb0, map_map. simpl. by rewrite map_id. }
  assert (workerMonitors m ≡ₚ seq 0 N) as Hwm.
  { subst m. rewrite Hperm, filter_started_all; [by rewrite Hrefs|].
    apply Hall. by eexists. }
  assert (length (workerMonitors m) = N) as Hk.
  { rewrite Hwm. apply length_seq. }
  fold m in Hnums. rewrite Hk in Hnums.
  assert (map (inumZ m) (seq 0 N) ≡ₚ seqZ 1 (Z.of_nat N)) as Hset.
  { rewrite <- Hnums. by apply (fmap_Permutation (inumZ m)). }
  split; [done|]. split; [done|]. split; [done|]. split; [done|].
  split; [done|]. split; [|split].
  - rewrite Hset. apply NoDup_seqZ.
  - intros Hnoerr i json Hi.
    apply (f_equal (λ l, l !! i)) in Hadded.
    rewrite !list_lookup_fmap, Hi in Hadded. simpl in Hadded.
    destruct (sp_boot s !! i) as [[r pc]|] eqn:Hb; [|done].
    simpl in Hadded. injection Hadded as Hpc.
    assert (r = i) as ->.
    { apply (f_equal (λ l, l !! i)) in Hrefs.
      rewrite list_lookup_fmap, Hb in Hrefs. simpl in Hrefs.
      symmetry in Hrefs. apply lookup_seq in Hrefs as [-> _]. done. }
    destruct Hinv as (_ & _ & Hok & _).
    pose proof (Forall_lookup_1 _ _ _ _ Hok Hb) as Hself.
    unfold boot_ok in Hself. simpl in Hself.
    destruct pc; try done. simpl in Hpc. injection Hpc as <-.
    destruct Hself as (n & Hn & [Hj|Hf]); [by exists n | done].
  - intros m1 r o errs Hheap.
    destruct (bootstrap_step_START o r m1 errs Hheap) as (m2 & name & -> & _ & Hn & _).
    simpl. split; [done|]. split.
    + intros Hnil. unfold allocated. by rewrite Hnil.
    + intros r' Hr'. by apply allocated_above.
Qed.

End SpawnFacts.

(** ** How the bootstraps of a call end *)

Section SpawnEnds.
Context `{Collaborators}.

(** One continuation of a bootstrap: what it does to the call's [errors]
    and to the bootstrap itself. *)
Lemma spawn_resume_end (i : nat) (o : Outcome) (s : SpawnCall) (r : nat) (pc : BootPc) :
  sp_boot s !! i = Some (r, pc) →
  boot_settled pc = None →
  ∃ pc',
    sp_boot (spawn_resume i o s) = <[i := (r, pc')]> (sp_boot s)
    ∧ sp_errors (spawn_resume i o s)
      = sp_errors s ++ match boot_end o pc with
                       | Some (Failed err) => [err]
                       | _ => []
                       end
    ∧ (is_Some (boot_end o pc) ↔ ∃ json, pc' = BDone json).
Proof.
  intros Hi Hpc. unfold spawn_resume. rewrite Hi.
  destruct pc as [|n name|n name pf| |json]; [| | | |done]; destruct o as [|err]; simpl;
    eexists; (split; [reflexivity|]); rewrite ?app_nil_r;
    (split; [reflexivity|]); split;
    try (by intros [? [=]]); try (by intros [? [=]]); try (intros _; by eexists);
    try (by intros [? ?]); eauto.
Qed.

Lemma settled_at_resume (i j : nat) (o : Outcome) (s : SpawnCall) (r : nat) (pc : BootPc) :
  sp_boot s !! i = Some (r, pc) →
  boot_settled pc = None →
  (settled_at (spawn_resume i o s) j
   ↔ settled_at s j ∨ (j = i ∧ is_Some (boot_end o pc))).
Proof.
  intros Hi Hpc.
  destruct (spawn_resume_end i o s r pc Hi Hpc) as (pc' & Hboot & _ & Hend).
  unfold settled_at. rewrite Hboot.
  destruct (decide (j = i)) as [->|Hne].
  - rewrite list_lookup_insert_eq by (by eapply lookup_lt_Some). split.
    + intros (r' & json & [= <- ->]). right. split; [done|]. apply Hend. by eexists.
    + intros [(r' & json & Hj)|[_ He]].
      * rewrite Hi in Hj. injection Hj as <- ->. done.
      * apply Hend in He as [json ->]. by exists r, json.
  - rewrite list_lookup_insert_ne by done. split; [by left|].
    intros [?|[? _]]; done.
Qed.

Lemma spawn_run_rtc (s s' : SpawnCall) (ends : list (nat * BootEnd)) :
  spawn_run s ends s' → rtc spawn_step s s'.
Proof.
  induction 1 as [s|i o s r pc ends s' Hi Hpc _ IH]; [done|].
  eapply rtc_l; [by eapply spawn_step_at | done].
Qed.

Lemma rtc_spawn_run (s s' : SpawnCall) :
  rtc spawn_step s s' → ∃ ends, spawn_run s ends s'.
Proof.
  induction 1 as [s|s s1 s' Hstep _ [ends IH]]; [exists []; constructor|].
  destruct Hstep as [i o s r pc Hi Hpc].
  eexists. by eapply spawn_run_next.
Qed.

Lemma settled_at_mono (s s' : SpawnCall) (j : nat) :
  rtc spawn_step s s' → settled_at s j → settled_at s' j.
Proof.
  induction 1 as [s|s s1 s' Hstep _ IH]; [done|]. intros Hj. apply IH.
  destruct Hstep as [i o s r pc Hi Hpc]. apply (settled_at_resume i j o s r pc Hi Hpc).
  by left.
Qed.

(** The errors a run collects are those of the bootstraps that failed during
    it, in the order they failed; a bootstrap ends at most once, and the
    bootstraps that ended during the run are those that have resolved by its
    end and had not at its start. *)
Lemma spawn_run_ends (s s' : SpawnCall) (ends : list (nat * BootEnd)) :
  spawn_run s ends s' →
  sp_errors s' = sp_errors s ++ failures ends
  ∧ NoDup (map fst ends)
  ∧ ∀ j, j ∈ map fst ends ↔ settled_at s' j ∧ ¬ settled_at s j.
Proof.
  induction 1 as [s|i o s r pc ends s' Hi Hpc Hrun (Herr & Hnd & Hiff)].
  { split; [by rewrite app_nil_r|]. split; [constructor|].
    intros j. split; [by intros ?%elem_of_nil | by intros [? ?]]. }
  destruct (spawn_resume_end i o s r pc Hi Hpc) as (pc' & _ & Herr1 & _).
  pose proof (λ j, settled_at_resume i j o s r pc Hi Hpc) as Hset.
  assert (¬ settled_at s i) as Hnot.
  { intros (r' & json & Hj). rewrite Hi in Hj. injection Hj as <- ->. done. }
  destruct (boot_end o pc) as [e|] eqn:He.
  - assert (settled_at (spawn_resume i o s) i) as Hnow
      by (apply Hset; right; split; [done | by eexists]).
    split; [|split].
    + rewrite Herr, Herr1, <- app_assoc. f_equal. unfold failures. simpl. by destruct e.
    + simpl. constructor; [|done]. intros Hin. apply Hiff in Hin as [_ Hno]. done.
    + intros j. simpl. rewrite elem_of_cons, Hiff, Hset. split.
      * intros [->|[Hj Hno]].
        -- split; [|done]. eapply settled_at_mono; [by eapply spawn_run_rtc | done].
        -- split; [done|]. intros Hs. apply Hno. by left.
      * intros [Hj Hno]. destruct (decide (j = i)) as [->|Hne]; [by left|].
        right. split; [done|]. intros [?|[? _]]; done.
  - split; [|split; [done|]].
    + rewrite Herr, Herr1. by rewrite app_nil_r.
    + intros j. rewrite Hiff, Hset. split.
      * intros [Hj Hno]. split; [done|]. intros Hs. apply Hno. by left.
      * intros [Hj Hno]. split; [done|]. intros [?|[_ [? [=]]]]; done.
Qed.

Lemma ends_split (ends : list (nat * BootEnd)) :
  (length (failures ends) + length (successes ends))%nat = length ends.
Proof.
  unfold failures, successes. induction ends as [|[i e] l IH]; [done|].
  destruct e; cbn [omap list_omap snd fst length]; cbn [omap list_omap] in IH; simpl; simpl in IH; lia.
Qed.

Lemma successes_spec (ends : list (nat * BootEnd)) (i : nat) :
  i ∈ successes ends ↔ (i, Started) ∈ ends.
Proof.
  unfold successes. rewrite list_elem_of_omap. split.
  - intros ([j e] & Hin & He). simpl in He. destruct e; [done|]. by injection He as ->.
  - intros Hin. by exists (i, Started).
Qed.

(** The shape of a call in terms of how its bootstraps ended. *)
Lemma spawn_ends_shape
    (options : Obj) (bind : Outcome) (m : Master) (s0 s : SpawnCall)
    (ends : list (nat * BootEnd)) :
  store_ok m →
  spawn_begin options bind m = inr s0 →
  spawn_run s0 ends s →
  let N := ensureInstanceNumber (get options "instances") in
  sp_errors s = failures ends
  ∧ NoDup (map fst ends)
  ∧ (∀ i, i ∈ map fst ends ↔ settled_at s i)
  ∧ (is_Some (spawn_result s) → length ends = N).
Proof.
  intros Hstore Hbegin Hrun N.
  destruct (spawn_begin_spec options bind m s0 Hstore Hbegin) as (Herr0 & Hboot0 & _).
  destruct (spawn_run_ends s0 s ends Hrun) as (Herr & Hnd & Hiff).
  assert (∀ j, ¬ settled_at s0 j) as Hfresh.
  { intros j (r & json & Hj). rewrite Hboot0 in Hj.
    change (((λ r, (r, BPending)) <$> seq (nextRef m) N) !! j = Some (r, BDone json)) in Hj.
    rewrite list_lookup_fmap in Hj. by destruct (seq (nextRef m) N !! j). }
  assert (∀ i, i ∈ map fst ends ↔ settled_at s i) as Hiff'.
  { intros i. rewrite Hiff. split; [by intros [? _] | intros ?; split; [done | apply Hfresh]]. }
  split; [by rewrite Herr, Herr0|]. split; [done|]. split; [done|].
  intros [res Hres].
  assert (length (sp_boot s) = N) as Hlen.
  { pose proof (spawn_run_refs s0 s (spawn_run_rtc _ _ _ Hrun)) as Hrefs.
    apply (f_equal length) in Hrefs. rewrite !length_map in Hrefs.
    rewrite Hrefs, Hboot0, length_map, length_seq. done. }
  unfold spawn_result in Hres.
  destruct (Promise_all _) as [added|] eqn:Hp; [|done].
  apply Promise_all_Some in Hp.
  assert (map fst ends ≡ₚ seq 0 N) as Hperm.
  { apply NoDup_Permutation; [done | apply NoDup_seq|].
    intros i. rewrite Hiff', elem_of_seq. split.
    - intros (r & json & Hi). apply lookup_lt_Some in Hi. lia.
    - intros [_ Hi]. simpl in Hi. rewrite <- Hlen in Hi.
      apply lookup_lt_is_Some in Hi as [[r pc] Hi].
      apply (f_equal (λ l, l !! i)) in Hp.
      change (map ?f ?l) with (f <$> l) in Hp.
      rewrite !list_lookup_fmap, Hi in Hp. simpl in Hp.
      destruct pc as [| | | |json]; simpl in Hp; try (by destruct (added !! i)).
      by exists r, json. }
  apply Permutation_length in Hperm. by rewrite length_map, length_seq in Hperm.
Qed.

(** C1 (amended). A [spawn] call whose lazy bind of the control socket
    rejects is rejected with that error before any worker is started.
    Otherwise, at every point of every interleaving of the bootstraps (each
    of which is a run with the ends of its bootstraps recorded): the call
    has a result exactly when every requested worker's bootstrap has
    resolved; while it has none, some bootstrap can go on; no run has more
    than four steps per requested worker. The collected errors are exactly
    the errors of the bootstraps that failed, in the order they failed, and
    a bootstrap ends (fails or goes through) at most once. The result, once
    there, has one [added] entry per requested worker, in request order, the
    collected errors as [errors], and [ok] true exactly when the requested
    workers outnumber the errors, which is exactly when at least one
    requested worker bootstrapped without error. *)
Theorem spawn_resolves_after_all_bootstraps
    (options : Obj) (bind : Outcome) (m : Master) (s0 s : SpawnCall)
    (ends : list (nat * BootEnd)) :
  wf_master m → store_ok m →
  spawn_begin options bind m = inr s0 →
  spawn_run s0 ends s →
  let N := ensureInstanceNumber (get options "instances") in
  (∀ err, socket m = None → spawn_begin options (Rejected err) m = inl err)
  ∧ (∀ s', rtc spawn_step s0 s' ↔ ∃ ends', spawn_run s0 ends' s')
  ∧ (is_Some (spawn_result s)
     ↔ Forall (λ b, is_Some (boot_settled (snd b))) (sp_boot s))
  ∧ (spawn_result s = None → ∃ s', spawn_step s s')
  ∧ (∀ n s', nsteps spawn_step n s0 s' → (n ≤ 4 * N)%nat)
  ∧ sp_errors s = failures ends
  ∧ NoDup (map fst ends)
  ∧ (∀ i, i ∈ map fst ends ↔ ∃ r json, sp_boot s !! i = Some (r, BDone json))
  ∧ ∀ res, spawn_result s = Some res →
      length (added res) = N
      ∧ map Some (added res) = map (λ b, boot_settled (snd b)) (sp_boot s)
      ∧ errors res = failures ends
      ∧ (length (failures ends) + length (successes ends))%nat = N
      ∧ ok res = bool_decide (length (errors res) < N)%nat
      ∧ (ok res = true ↔ ∃ i, (i, Started) ∈ ends).
Proof.
  intros Hwf Hstore Hbegin Hrun N.
  pose proof (spawn_run_rtc _ _ _ Hrun) as Hrtc.
  destruct (spawn_call_shape options bind m s0 s Hwf Hstore Hbegin Hrtc)
    as (Hsome & Hprog & Hbound & Hres).
  destruct (spawn_ends_shape options bind m s0 s ends Hstore Hbegin Hrun)
    as (Herr & Hnd & Hiff & Hlen).
  split; [intros err Hs; by apply spawn_begin_bind_rejected|].
  split.
  { intros s'. split; [apply rtc_spawn_run | intros [ends' Hr]; by eapply spawn_run_rtc]. }
  split; [done|]. split; [done|]. split; [done|]. split; [done|]. split; [done|].
  split; [done|].
  intros res Hr. destruct (Hres res Hr) as (Ha & Hb & Hc & _ & He).
  assert (length ends = N) as Hn by (apply Hlen; by eexists).
  pose proof (ends_split ends) as Hsplit.
  split; [done|]. split; [done|]. split; [by rewrite Hc|]. split; [lia|].
  split; [done|].
  rewrite He, Hc, Herr, bool_decide_eq_true.
  split.
  - intros Hlt. destruct (successes ends) as [|i l] eqn:Hs; [simpl in Hsplit; fold N in Hlt; lia|].
    exists i. apply successes_spec. rewrite Hs. by left.
  - intros [i Hi]. apply successes_spec in Hi.
    destruct (successes ends); [by apply elem_of_nil in Hi|]. simpl in Hsplit. fold N. lia.
Qed.

End SpawnEnds.

Lemma run_spawn_steps (schedule : list (nat * Outcome)) :
  ∀ s, Examples.schedule_ok schedule s = true →
       rtc (@spawn_step Examples.posix) s (Examples.run_spawn schedule s).
Proof.
  induction schedule as [|[i o] rest IH]; intros s Hok; simpl in *; [done|].
  destruct (sp_boot s !! i) as [[r pc]|] eqn:Hi; [|done].
  destruct (boot_settled pc) eqn:Hpc; [done|].
  eapply rtc_l; [by eapply (@spawn_step_at Examples.posix i o) | by apply IH].
Qed.

Lemma run_spawn_ends (schedule : list (nat * Outcome)) :
  ∀ s, Examples.schedule_ok schedule s = true →
       @spawn_run Examples.posix s (Examples.run_ends schedule s)
                  (Examples.run_spawn schedule s).
Proof.
  induction schedule as [|[i o] rest IH]; intros s Hok; simpl in *; [constructor|].
  destruct (sp_boot s !! i) as [[r pc]|] eqn:Hi; [|done].
  destruct (boot_settled pc) eqn:Hpc; [done|].
  pose proof (@spawn_run_next Examples.posix i o s r pc _ _ Hi Hpc (IH _ Hok)) as Hrun.
  by destruct (boot_end o pc).
Qed.

Lemma spawn_resolves_after_all_bootstraps_witness :
  errors Examples.half_result = failures Examples.half_ends
  ∧ ok Examples.half_result = true.
Proof.
  pose proof (@spawn_resolves_after_all_bootstraps Examples.posix
                {[ "instances" := VNum 2 ]} Resolved Examples.fresh
                (Examples.begin_spawn 2 Examples.fresh) Examples.half_failed
                Examples.half_ends) as Hs.
  destruct Hs as (_ & _ & _ & _ & _ & _ & _ & _ & Hres).
  - apply newMaster_wf.
  - apply newMaster_wf.
  - vm_compute. reflexivity.
  - apply run_spawn_ends. vm_compute. reflexivity.
  - destruct (Hres Examples.half_result) as (_ & _ & Herr & _ & _ & Hok).
    + vm_compute. reflexivity.
    + split; [exact Herr|]. apply Hok. exists 0%nat. vm_compute. left.
Defined.

(** C1, as stated, fails: of two requested workers one bootstraps and one
    fails, so one success does not outnumber one error, yet [ok] is [true]. *)
Lemma spawn_ok_is_not_success_majority :
  ∃ res, spawn_result Examples.half_failed = Some res
         ∧ length (added res) = 2%nat
         ∧ length (errors res) = 1%nat
         ∧ ok res = true
         ∧ (length (errors res) <? length (added res) - length (errors res))%nat = false.
Proof. eexists. split; [vm_compute; reflexivity|]. by vm_compute. Qed.

Lemma spawn_fresh_numbers_1_to_N_witness :
  map (inumZ (sp_master Examples.three_call)) (workerMonitors (sp_master Examples.three_call))
  = seqZ 1 3.
Proof.
  pose proof (@spawn_fresh_numbers_1_to_N Examples.posix
                Examples.options 1 ∅ 3 {[ "instances" := VNum 3 ]} Resolved
                (Examples.begin_spawn 3 Examples.fresh) Examples.three_call
                Examples.three_result) as Hs.
  destruct Hs as (_ & _ & _ & Hnums & _).
  - lia.
  - reflexivity.
  - reflexivity.
  - vm_compute. reflexivity.
  - apply run_spawn_steps. vm_compute. reflexivity.
  - vm_compute. reflexivity.
  - exact Hnums.
Defined.

(** C4, as stated, fails: with workers 1 and 2 registered, instance 2 is shut
    down and one more worker is spawned; the new worker is given 2 again
    while its sibling 1 is still registered. *)
Lemma instanceNum_reused_while_sibling_exists :
  inum Examples.two_workers 1 = Some 2
  ∧ workerMonitors Examples.after_removing_2 = [0%nat]
  ∧ inum Examples.after_removing_2 0 = Some 1
  ∧ workerMonitors Examples.respawned = [0%nat; 2%nat]
  ∧ inum Examples.respawned 2 = Some 2.
Proof. by vm_compute. Qed.

(** ** shutDown *)

Section ShutDownFacts.

Lemma NoDup_map_inj {A B} (f : A → B) (l : list A) (x y : A) :
  NoDup (map f l) → x ∈ l → y ∈ l → f x = f y → x = y.
Proof.
  induction l as [|a l IH]; intros Hnd Hx Hy Heq; [by apply elem_of_nil in Hx|].
  simpl in Hnd. apply NoDup_cons in Hnd as [Ha Hnd].
  apply elem_of_cons in Hx as [->|Hx]; apply elem_of_cons in Hy as [->|Hy]; try done.
  - exfalso. apply Ha. rewrite Heq. apply list_elem_of_fmap. by exists y.
  - exfalso. apply Ha. rewrite <- Heq. apply list_elem_of_fmap. by exists x.
  - by apply IH.
Qed.

(** Registered workers have pairwise different instance numbers. *)
Lemma wf_numbers_distinct (m : Master) (r1 r2 : nat) :
  wf_master m → r1 ∈ workerMonitors m → r2 ∈ workerMonitors m →
  inum m r1 = inum m r2 → r1 = r2.
Proof.
  intros [Hasc Hass] H1 H2 Heq.
  apply (NoDup_map_inj (inumZ m) (workerMonitors m)); try done.
  - by apply StronglySorted_lt_NoDup.
  - unfold inumZ. by rewrite Heq.
Qed.

Lemma find_None_forall {A} (f : A → bool) (l : list A) :
  List.find f l = None ↔ ∀ x, In x l → f x = false.
Proof.
  split; [apply find_none|].
  induction l as [|a l IH]; intros Hall; simpl; [done|].
  rewrite (Hall a) by (by left). apply IH. intros x Hx. apply Hall. by right.
Qed.

Lemma find_worker_None (m : Master) (n : Z) :
  find_worker m (VNum n) = None ↔ ∀ r, r ∈ workerMonitors m → inum m r ≠ Some n.
Proof.
  unfold find_worker. rewrite find_None_forall. split.
  - intros Hnone r Hr Hn. apply list_elem_of_In in Hr. specialize (Hnone r Hr).
    unfold inum_value in Hnone. rewrite Hn in Hnone. simpl in Hnone.
    by rewrite Z.eqb_refl in Hnone.
  - intros Hall r Hr%list_elem_of_In. specialize (Hall r Hr).
    unfold inum_value. destruct (inum m r) as [k|]; simpl; [|done].
    apply Z.eqb_neq. congruence.
Qed.

Lemma find_worker_Some (m : Master) (n : Z) (r : nat) :
  find_worker m (VNum n) = Some r → r ∈ workerMonitors m ∧ inum m r = Some n.
Proof.
  unfold find_worker. intros Hf. apply find_some in Hf as [Hin Heq].
  split; [by apply list_elem_of_In|].
  unfold inum_value in Heq. destruct (inum m r) as [k|]; simpl in Heq; [|done].
  apply Z.eqb_eq in Heq. by subst.
Qed.

Lemma find_worker_own (m : Master) (r : nat) :
  wf_master m → r ∈ workerMonitors m → find_worker m (inum_value m r) = Some r.
Proof.
  intros Hwf Hr. destruct Hwf as [Hasc Hass].
  destruct (Hass r Hr) as [n Hn]. unfold inum_value. rewrite Hn.
  destruct (find_worker m (VNum n)) as [r'|] eqn:Hf.
  - apply find_worker_Some in Hf as [Hin Hn'].
    f_equal. apply (wf_numbers_distinct m); try done. congruence.
  - exfalso. by apply (proj1 (find_worker_None m n) Hf r).
Qed.

(** A number is never a broadcast request. *)
Lemma is_broadcast_num (n : Z) : is_broadcast (VNum n) = false.
Proof. unfold is_broadcast. simpl. by destruct (Z.eqb_spec n 0). Qed.

Lemma StronglySorted_map_filter {A B} (R : relation B) (f : A → B) (P : A → bool)
    (l : list A) :
  StronglySorted R (map f l) → StronglySorted R (map f (List.filter P l)).
Proof.
  induction l as [|x l IH]; simpl; [done|].
  intros [Hl Hx]%StronglySorted_inv.
  destruct (P x); [|by apply IH]. simpl. constructor; [by apply IH|].
  rewrite Forall_forall in *. intros y (z & -> & Hz)%list_elem_of_fmap. apply Hx.
  apply list_elem_of_fmap. exists z. split; [done|].
  apply list_elem_of_In in Hz. apply filter_In in Hz as [Hz _].
  by apply list_elem_of_In.
Qed.

(** Taking a worker out of [workerMonitors] keeps the orchestrator well
    formed. *)
Lemma wf_remove (m m' : Master) (r : nat) :
  wf_master m →
  workerMonitors m' = List.filter (λ y, negb (Nat.eqb y r)) (workerMonitors m) →
  (∀ r', inum m' r' = inum m r') →
  wf_master m'.
Proof.
  intros [Hasc Hass] Hl Hn. split.
  - unfold ascending in *. rewrite Hl.
    rewrite (map_ext (inumZ m') (inumZ m)) by (intros r'; unfold inumZ; by rewrite Hn).
    by apply StronglySorted_map_filter.
  - intros r' Hr'. rewrite Hl in Hr'. apply list_elem_of_In, filter_In in Hr' as [Hr' _].
    rewrite Hn. apply Hass. by apply list_elem_of_In.
Qed.


Lemma removePidFile_frame (pidFile : Value) (m : Master) :
  workerMonitors (removePidFile pidFile m) = workerMonitors m
  ∧ heap (removePidFile pidFile m) = heap m
  ∧ exited (removePidFile pidFile m) = exited m
  ∧ socket (removePidFile pidFile m) = socket m
  ∧ listening (removePidFile pidFile m) = listening m.
Proof. by destruct pidFile. Qed.

Lemma removeDomainSocket_frame (socketPath : Value) (m : Master) :
  workerMonitors (removeDomainSocket socketPath m) = workerMonitors m
  ∧ heap (removeDomainSocket socketPath m) = heap m
  ∧ exited (removeDomainSocket socketPath m) = exited m
  ∧ socket (removeDomainSocket socketPath m) = socket m
  ∧ listening (removeDomainSocket socketPath m) = listening m.
Proof. by destruct socketPath. Qed.

Lemma removeDomainSocket_removes (p : string) (m : Master) :
  p ∉ files (removeDomainSocket (VStr p) m).
Proof. simpl. apply not_elem_of_difference. right. by apply elem_of_singleton. Qed.


(** When [stop()] has resolved the worker is taken out of [workerMonitors];
    nothing else about the registered workers changes. *)
Lemma shut_step_stop (m : Master) (r : nat) :
  NoDup (workerMonitors m) → r ∈ workerMonitors m →
  ∃ m1 socketPath pidFile,
    shut_step Resolved (SStop r) m = (m1, SRemovePid socketPath pidFile)
    ∧ socketPath = data_get m r "socketPath"
    ∧ pidFile = data_get m r "pidFile"
    ∧ workerMonitors m1 = List.filter (λ y, negb (Nat.eqb y r)) (workerMonitors m)
    ∧ (∀ r', inum m1 r' = inum m r')
    ∧ exited m1 = exited m ∧ socket m1 = socket m ∧ listening m1 = listening m
    ∧ files m1 = files m.
Proof.
  intros Hnd Hr. eexists _, _, _. split; [reflexivity|].
  simpl. rewrite splice1_indexOf by done.
  split; [|split; [|split; [done|split; [|done]]]].
  - unfold toJSON, data_get. simpl. rewrite lookup_alter_eq.
    destruct (heap m !! r) as [w|]; simpl; [|done].
    unfold get. by rewrite toJSON_data.
  - unfold toJSON, data_get. simpl. rewrite lookup_alter_eq.
    destruct (heap m !! r) as [w|]; simpl; [|done].
    unfold get. by rewrite toJSON_data.
  - intros r'.
    change (inum (modify_worker r (λ w, fst (WorkerLifecycle.stop w)) m) r' = inum m r').
    by apply inum_modify_keep.
Qed.

(** When the PID record is gone: with workers left the call returns; with
    none left it removes the socket file and goes on to close the server,
    or exits at once when no server is bound. *)
Lemma shut_step_removePid (m : Master) (socketPath pidFile : Value) :
  let m1 := removePidFile pidFile m in
  shut_step Resolved (SRemovePid socketPath pidFile) m
  = match workerMonitors m with
    | _ :: _ => (m1, SReturned)
    | [] =>
        match socket m with
        | Some _ => (removeDomainSocket socketPath m1, SClose)
        | None => (process_exit (Some 0) (removeDomainSocket socketPath m1), SExited)
        end
    end.
Proof.
  simpl. destruct (removePidFile_frame pidFile m) as (Hl & _ & _ & Hs & _).
  destruct (removeDomainSocket_frame socketPath (removePidFile pidFile m)) as (_ & _ & _ & Hs2 & _).
  rewrite Hl. destruct (workerMonitors m); simpl; [|done].
  rewrite Hs2, Hs. by destruct (socket m).
Qed.


Lemma shutDown_one_missing (m : Master) (n : Z) :
  (∀ r, r ∈ workerMonitors m → inum m r ≠ Some n) →
  shutDown (VNum n) m
  = (add_log (mkLog warn "Can not stop instance number" (VNum n)) m, [SReturned]).
Proof.
  intros Hnone. unfold shutDown. rewrite is_broadcast_num.
  unfold shutDown_one. by rewrite (proj2 (find_worker_None m n) Hnone).
Qed.

(** After a shutdown of instance [n] that went through and returned, no
    registered worker has number [n]. *)
Lemma shutDown_removes_number (m0 m1 m2 : Master) (n : Z) (r : nat) (pc1 : ShutPc) :
  wf_master m0 →
  find_worker m0 (VNum n) = Some r →
  shut_step Resolved (SStop r) m0 = (m1, pc1) →
  shut_step Resolved pc1 m1 = (m2, SReturned) →
  wf_master m2 ∧ ∀ r', r' ∈ workerMonitors m2 → inum m2 r' ≠ Some n.
Proof.
  intros Hwf Hfind Hs1 Hs2.
  apply find_worker_Some in Hfind as [Hr Hn].
  pose proof (ascending_NoDup m0 (proj1 Hwf)) as Hnd.
  destruct (shut_step_stop m0 r Hnd Hr)
    as (m1' & sp & pf & Heq & _ & _ & Hl & Hnum & _).
  rewrite Heq in Hs1. injection Hs1 as <- <-.
  rewrite shut_step_removePid in Hs2.
  destruct (removePidFile_frame pf m1') as (Hl2 & Hh2 & _).
  destruct (workerMonitors m1') as [|x l] eqn:Hwm.
  { destruct (socket m1'); discriminate Hs2. }
  injection Hs2 as <-.
  assert (∀ r', inum (removePidFile pf m1') r' = inum m0 r') as Hnum2.
  { intros r'. unfold inum. rewrite Hh2. apply Hnum. }
  split.
  - apply (wf_remove m0 _ r); [done | by rewrite Hl2 | done].
  - intros r' Hr'. rewrite Hl2, Hl in Hr'.
    apply list_elem_of_In, filter_In in Hr' as [Hr' Hne].
    apply list_elem_of_In in Hr'.
    rewrite Hnum2. intros Hn'.
    assert (r' = r) as -> by (apply (wf_numbers_distinct m0); congruence).
    by rewrite Nat.eqb_refl in Hne.
Qed.

(** C6. [shutDown(n)] for a number [n] that no registered worker has logs
    the warning and returns, with [workerMonitors], the worker objects, the
    run directory and the process left as they were. This is what a second
    [shutDown(n)] meets after a first one that went through and returned:
    no worker has number [n] any more. *)
Theorem shutDown_missing_instance_is_logged_noop (m : Master) (n : Z) :
  (∀ r, r ∈ workerMonitors m → inum m r ≠ Some n) →
  let warned := add_log (mkLog warn "Can not stop instance number" (VNum n)) m in
  shutDown (VNum n) m = (warned, [SReturned])
  ∧ logs warned = logs m ++ [mkLog warn "Can not stop instance number" (VNum n)]
  ∧ workerMonitors warned = workerMonitors m
  ∧ heap warned = heap m
  ∧ files warned = files m
  ∧ exited warned = exited m
  ∧ ∀ (m0 m1 m2 : Master) (k : Z) (r : nat) (pc1 : ShutPc),
      wf_master m0 →
      shutDown (VNum k) m0 = (m0, [SStop r]) →
      shut_step Resolved (SStop r) m0 = (m1, pc1) →
      shut_step Resolved pc1 m1 = (m2, SReturned) →
      shutDown (VNum k) m2
      = (add_log (mkLog warn "Can not stop instance number" (VNum k)) m2, [SReturned]).
Proof.
  intros Hnone warned. split; [by apply shutDown_one_missing|].
  do 5 (split; [done|]).
  intros m0 m1 m2 k r pc1 Hwf Hcall Hs1 Hs2.
  apply shutDown_one_missing.
  eapply (shutDown_removes_number m0 m1 m2 k r pc1); try done.
  unfold shutDown in Hcall. rewrite is_broadcast_num in Hcall.
  unfold shutDown_one in Hcall.
  destruct (find_worker m0 (VNum k)) as [r'|]; [|discriminate Hcall].
  by injection Hcall as ->.
Qed.

End ShutDownFacts.

Lemma shutDown_missing_instance_is_logged_noop_witness :
  workerMonitors (fst (shutDown (VNum 2) Examples.after_removing_2))
  = workerMonitors Examples.after_removing_2
  ∧ snd (shutDown (VNum 2) Examples.after_removing_2) = [SReturned].
Proof.
  pose proof (shutDown_missing_instance_is_logged_noop Examples.after_removing_2 2) as Hs.
  destruct Hs as (Hcall & _ & Hwm & _).
  - intros r Hr. vm_compute in Hr. apply list_elem_of_singleton in Hr. subst r.
    vm_compute. discriminate.
  - rewrite Hcall. split; [exact Hwm | reflexivity].
Defined.

(** ** The end of the orchestrator *)

Section ExitFacts.


End ExitFacts.

Section EndFacts.
Context `{Collaborators}.



















End EndFacts.

Lemma example_wf (k : nat) (n : Z) :
  @spawn_begin Examples.posix {[ "instances" := VNum n ]} Resolved Examples.fresh
    = inr (Examples.begin_spawn n Examples.fresh) →
  Examples.schedule_ok (Examples.all_resolve k) (Examples.begin_spawn n Examples.fresh) = true →
  wf_master (sp_master (Examples.run_spawn (Examples.all_resolve k)
                          (Examples.begin_spawn n Examples.fresh))).
Proof.
  intros Hbegin Hok.
  destruct (newMaster_wf Examples.options 1 ∅) as [Hwf Hstore].
  pose proof (@spawn_begin_inv Examples.posix _ _ _ _ Hwf Hstore Hbegin) as Hinv.
  apply run_spawn_steps in Hok.
  by destruct (@spawn_run_inv Examples.posix _ _ Hinv Hok) as [Hw _].
Qed.

Lemma one_worker_wf : wf_master Examples.one_worker.
Proof. apply (example_wf 1 1); vm_compute; reflexivity. Qed.

Lemma two_workers_wf : wf_master Examples.two_workers.
Proof. apply (example_wf 2 2); vm_compute; reflexivity. Qed.




(** ** scale *)

Section ScaleFacts.
Context `{Collaborators}.


















End ScaleFacts.





(** ** state, setState and getState *)

Section StateFacts.

Lemma assign_state_idem (newState : Value) (w : WorkerMonitor) :
  assign_state newState (assign_state newState w) = assign_state newState w.
Proof.
  destruct w as [n d c p b s l k]. unfold assign_state, set_data. simpl.
  f_equal. unfold Object_assign. by rewrite (assoc (∪)), (idemp (∪)).
Qed.

(** What [state(newState)] does to the worker objects: with a truthy
    [newState] every listed worker has it merged into its [data]; the
    others, and everything with a falsy [newState], stay as they were. *)
Lemma state_loop_heap (newState : Value) (refs : list nat) :
  ∀ (m : Master) (acc : list Value),
    let m' := fst (foldl (λ acc r,
                      let m1 := if truthy newState
                                then modify_worker r (assign_state newState) (fst acc)
                                else fst acc in
                      (m1, snd acc ++ [VObj (toJSON m1 r)])) (m, acc) refs) in
    workerMonitors m' = workerMonitors m
    ∧ ∀ r, heap m' !! r
           = if truthy newState && bool_decide (r ∈ refs)
             then assign_state newState <$> heap m !! r
             else heap m !! r.
Proof.
  induction refs as [|r0 refs IH]; intros m acc; simpl.
  - split; [done|]. intros r. by destruct (truthy newState).
  - match goal with |- context [foldl _ (?m1, ?a1) refs] =>
      destruct (IH m1 a1) as [Hl Hh] end.
    cbv zeta in Hl, Hh. rewrite Hl. split; [by destruct (truthy newState)|].
    intros r. rewrite Hh. destruct (truthy newState) eqn:Ht; simpl; [|done].
    destruct (decide (r = r0)) as [->|Hne].
    + rewrite (bool_decide_eq_true_2 (r0 ∈ r0 :: refs)) by (by left).
      rewrite lookup_alter_eq.
      destruct (bool_decide (r0 ∈ refs)); [|done].
      destruct (heap m !! r0); simpl; [|done]. by rewrite assign_state_idem.
    + rewrite lookup_alter_ne by done.
      destruct (decide (r ∈ refs)) as [Hin|Hin].
      * rewrite !bool_decide_eq_true_2; [done | by right | done].
      * rewrite !bool_decide_eq_false_2; [done | | done].
        by intros [->|?]%elem_of_cons.
Qed.

(** The snapshots [state(newState)] returns are those of the workers as the
    call leaves them. *)
Lemma state_loop_snapshots (newState : Value) (refs : list nat) :
  ∀ (m : Master) (acc : list Value),
    let res := foldl (λ acc r,
                      let m1 := if truthy newState
                                then modify_worker r (assign_state newState) (fst acc)
                                else fst acc in
                      (m1, snd acc ++ [VObj (toJSON m1 r)])) (m, acc) refs in
    snd res = acc ++ map (λ r, VObj (toJSON (fst res) r)) refs.
Proof.
  induction refs as [|r0 refs IH]; intros m acc; simpl; [by rewrite app_nil_r|].
  match goal with |- context [foldl ?f (?m1, ?a1) refs] =>
    pose proof (IH m1 a1) as Hs;
    destruct (state_loop_heap newState refs m1 a1) as [_ Hh] end.
  cbv zeta in Hs, Hh. rewrite Hs, <- app_assoc. simpl. do 3 f_equal.
  unfold toJSON. rewrite Hh.
  destruct (truthy newState) eqn:Ht; simpl.
  - rewrite lookup_alter_eq.
    destruct (bool_decide (r0 ∈ refs)); [|done].
    destruct (heap m !! r0); simpl; [|done]. by rewrite assign_state_idem.
  - done.
Qed.

(** [state(newState)], all in one. *)
Lemma state_spec (newState : Value) (m : Master) :
  let m' := fst (state newState m) in
  snd (state newState m)
    = VObj {[ "stateList" := VArr (map (λ r, VObj (toJSON m' r)) (workerMonitors m)) ]}
  ∧ workerMonitors m' = workerMonitors m
  ∧ ∀ r, heap m' !! r
         = if truthy newState && bool_decide (r ∈ workerMonitors m)
           then assign_state newState <$> heap m !! r
           else heap m !! r.
Proof.
  unfold state, state_loop.
  pose proof (state_loop_snapshots newState (workerMonitors m) m []) as Hs.
  destruct (state_loop_heap newState (workerMonitors m) m []) as [Hl Hh].
  cbv zeta in Hs, Hl, Hh.
  destruct (foldl _ _ _) as [m1 stateList]. simpl in *. by rewrite Hs.
Qed.




End StateFacts.



(** ** The exit handler *)

Section ExitHandler.

Lemma first_rejection_None (tasks : list ShutPc) :
  first_rejection tasks = None ↔ ∀ err, SThrew err ∉ tasks.
Proof.
  unfold first_rejection. induction tasks as [|pc l IH]; simpl.
  - split; [intros _ err Hin; by apply elem_of_nil in Hin | done].
  - destruct pc; simpl; rewrite ?IH;
      try (split; [intros Hl e [?|?]%elem_of_cons; [done | by eapply Hl]
                  | intros Hl e Hin; apply (Hl e); by right]).
    split; [done|]. intros Hl. exfalso. apply (Hl err). by left.
Qed.

Lemma all_returned_spec (tasks : list ShutPc) :
  all_returned tasks = true ↔ ∀ pc, pc ∈ tasks → pc = SReturned.
Proof.
  unfold all_returned. rewrite forallb_forall. split.
  - intros Hl pc Hin. apply list_elem_of_In in Hin. specialize (Hl pc Hin). by destruct pc.
  - intros Hl pc Hin. apply list_elem_of_In in Hin. by rewrite (Hl pc Hin).
Qed.

(** While the handler waits, some nested call is at an await. *)
Lemma exit_waiting (tasks : list ShutPc) :
  first_rejection tasks = None → all_returned tasks = false →
  Forall (λ pc, pc ≠ SExited) tasks →
  ∃ i pc, tasks !! i = Some pc ∧ shut_waiting pc = true.
Proof.
  intros Hrej Hall Hex.
  induction tasks as [|pc l IH]; [done|].
  apply Forall_cons in Hex as [Hpc Hex].
  destruct (shut_waiting pc) eqn:Hw; [by exists 0%nat, pc|].
  destruct pc; try done.
  destruct IH as (i & pc & Hi & Hwait); [| |done|by exists (S i), pc].
  - apply first_rejection_None. intros err Hin.
    apply (proj1 (first_rejection_None _) Hrej err). by right.
  - simpl in Hall. done.
Qed.

Lemma shut_step_exits (o : Outcome) (pc : ShutPc) (m : Master) :
  exited m = None →
  let m' := fst (shut_step o pc m) in
  let pc' := snd (shut_step o pc m) in
  (pc' = SExited → pc ≠ SExited → exited m' = Some (Some 0))
  ∧ (pc' ≠ SExited → exited m' = None)
  ∧ (pc ≠ SExited → shut_waiting pc = true →
       (shut_left pc' < shut_left pc)%nat).
Proof.
  intros Hm. destruct pc as [r|sp pf| | |e0|]; destruct o as [|err]; simpl;
    try (split; [done|]; split; [done|]; intros; simpl; lia).
  destruct (removePidFile_frame pf m) as (Hl & _ & Hex & Hs & _).
  destruct (removeDomainSocket_frame sp (removePidFile pf m)) as (Hl2 & _ & Hex2 & Hs2 & _).
  destruct (length (workerMonitors (removePidFile pf m)) =? 0)%nat.
  - destruct (socket (removeDomainSocket sp (removePidFile pf m))); simpl.
    + split; [done|]. split; [intros; congruence|]. intros; lia.
    + split; [done|]. split; [done|]. intros; lia.
  - simpl. split; [done|]. split; [intros; congruence|]. intros; lia.
Qed.

Lemma exit_join_inv (m : Master) (tasks : list ShutPc) :
  (exited m = None → Forall (λ pc, pc ≠ SExited) tasks) →
  (∀ code, exited m = Some code → code = None ∨ code = Some 0) →
  exit_inv (exit_join (mkExit m tasks)).
Proof.
  intros Halive Hcode. unfold exit_join, exit_inv. simpl.
  destruct (exited m) as [code|] eqn:Hex; simpl; [rewrite Hex; by apply Hcode|].
  destruct (first_rejection tasks) as [err|] eqn:Hrej; simpl; [by left|].
  destruct (all_returned tasks) eqn:Hall; simpl; [by left|].
  rewrite Hex. split; [done|]. split; [done|]. by apply Halive.
Qed.

Lemma exit_begin_tasks (m : Master) :
  length (ex_tasks (exit_begin m)) = length (workerMonitors m)
  ∧ Forall (λ pc, (shut_left pc ≤ 3)%nat ∧ pc ≠ SExited) (ex_tasks (exit_begin m))
  ∧ (exited m = None → exit_inv (exit_begin m)).
Proof.
  unfold exit_begin, shutDown_all.
  assert (∀ l acc,
    let res := foldl (λ acc r,
           let '(m1, pc) := shutDown_one (inum_value (fst acc) r) (fst acc) in
           (m1, snd acc ++ [pc])) acc l in
    length (snd res) = (length (snd acc) + length l)%nat
    ∧ exited (fst res) = exited (fst acc)
    ∧ (Forall (λ pc, (shut_left pc ≤ 3)%nat ∧ pc ≠ SExited) (snd acc) →
       Forall (λ pc, (shut_left pc ≤ 3)%nat ∧ pc ≠ SExited) (snd res))) as Hgen.
  { induction l as [|r l IH]; intros acc; simpl; [split; [lia|done]|].
    unfold shutDown_one at 2 4 6.
    destruct (find_worker (fst acc) (inum_value (fst acc) r)) as [r'|]; simpl;
      match goal with |- context [foldl _ ?a l] => destruct (IH a) as (Hlen & Hex & Hall) end;
      simpl in *; rewrite Hlen, Hex, length_app; simpl;
      (split; [lia|]; split; [done|]; intros Hacc; apply Hall;
       apply Forall_app; split; [done|]; apply Forall_singleton; simpl; split; [lia|done]). }
  destruct (Hgen (workerMonitors m) (m, [])) as (Hlen & Hex & Hall).
  simpl in *. specialize (Hall (Forall_nil_2 _)).
  destruct (foldl _ _ _) as [m1 tasks]. simpl in *.
  assert (ex_tasks (exit_join (mkExit m1 tasks)) = tasks) as Ht.
  { unfold exit_join. simpl. destruct (exited m1); [done|].
    destruct (first_rejection tasks); [done|]. by destruct (all_returned tasks). }
  rewrite Ht. split; [done|]. split; [done|].
  intros Hm. apply exit_join_inv.
  - intros _. eapply Forall_impl; [exact Hall|]. by intros pc [_ ?].
  - rewrite Hex, Hm. done.
Qed.

Lemma exit_step_inv (s s' : ExitCall) :
  exit_inv s → exit_step s s' → exit_inv s'.
Proof.
  intros Hinv Hstep. destruct Hstep as [i o s pc Hi Hw Hex].
  unfold exit_inv in Hinv. rewrite Hex in Hinv. destruct Hinv as (Hrej & Hall & Hnone).
  unfold exit_resume. rewrite Hi.
  destruct (shut_step_exits o pc (ex_master s) Hex) as (Hexit & Hlive & _).
  destruct (shut_step o pc (ex_master s)) as [m' pc'] eqn:Hstep. simpl in *.
  apply exit_join_inv.
  - intros Hm'. apply Forall_insert; [done|].
    intros ->. rewrite Hexit in Hm'; [done | done | by destruct pc].
  - intros code Hc.
    assert (pc' = SExited ∨ pc' ≠ SExited) as [->|Hne]
      by (destruct pc'; (by left) || (by right)).
    + rewrite Hexit in Hc; [|done | by destruct pc]. right. congruence.
    + rewrite Hlive in Hc by done. done.
Qed.

Lemma exit_run_inv (s s' : ExitCall) :
  exit_inv s → rtc exit_step s s' → exit_inv s'.
Proof. induction 2; eauto using exit_step_inv. Qed.

Lemma exit_join_tasks (s : ExitCall) : ex_tasks (exit_join s) = ex_tasks s.
Proof.
  unfold exit_join. destruct (exited (ex_master s)); [done|].
  destruct (first_rejection (ex_tasks s)); [done|]. by destruct (all_returned (ex_tasks s)).
Qed.

Lemma exit_step_decreases (s s' : ExitCall) :
  exit_step s s' → (exit_left s' < exit_left s)%nat.
Proof.
  intros [i o s0 pc Hi Hw Hex]. unfold exit_resume. rewrite Hi.
  destruct (shut_step_exits o pc (ex_master s0) Hex) as (_ & _ & Hdec).
  destruct (shut_step o pc (ex_master s0)) as [m' pc'] eqn:Hstep. simpl in *.
  unfold exit_left. rewrite exit_join_tasks. simpl.
  assert (pc ≠ SExited) as Hne by (by destruct pc).
  specialize (Hdec Hne Hw).
  pose proof (sum_list_map_insert shut_left (ex_tasks s0) i pc pc' Hi) as Hsum.
  lia.
Qed.

Lemma exit_run_bounded (n : nat) (s s' : ExitCall) :
  nsteps exit_step n s s' → (n + exit_left s' ≤ exit_left s)%nat.
Proof.
  induction 1 as [|n s s1 s' Hstep _ IH]; [lia|].
  apply exit_step_decreases in Hstep. lia.
Qed.

Lemma exit_left_le (tasks : list ShutPc) :
  Forall (λ pc, (shut_left pc ≤ 3)%nat ∧ pc ≠ SExited) tasks →
  (sum_list (map shut_left tasks) ≤ 3 * length tasks)%nat.
Proof. induction 1 as [|pc l [Hpc _] _ IH]; simpl; lia. Qed.

(** X1. The exit handler of the constructor ([await this.shutDown()] in a
    [try], then [process.exit()]) always ends in a process exit. With no
    worker registered it exits at once. Otherwise, in every interleaving of
    the nested [shutDown] calls and whatever their awaits do: no run takes
    more than three steps per worker; as long as the process lives some
    nested call is still waiting and can go on; and the process exits with
    the handler's own [process.exit()] or with the code 0 of the last
    [shutDown]. *)
Theorem exit_handler_always_exits (m : Master) :
  wf_master m →
  exited m = None →
  (workerMonitors m = [] → exited (ex_master (exit_begin m)) = Some None)
  ∧ (∀ n s, nsteps exit_step n (exit_begin m) s →
       (n ≤ 3 * length (workerMonitors m))%nat)
  ∧ ∀ s, rtc exit_step (exit_begin m) s →
      match exited (ex_master s) with
      | None => ∃ s', exit_step s s'
      | Some code => code = None ∨ code = Some 0
      end.
Proof.
  intros _ Hm. destruct (exit_begin_tasks m) as (Hlen & Hall & Hinv).
  split; [|split].
  - intros Hnil. unfold exit_begin, shutDown_all. rewrite Hnil. simpl.
    unfold exit_join. simpl. by rewrite Hm.
  - intros n s Hn. apply exit_run_bounded in Hn.
    pose proof (exit_left_le _ Hall) as Hle. unfold exit_left in Hn. lia.
  - intros s Hrun. pose proof (exit_run_inv _ _ (Hinv Hm) Hrun) as Hs.
    unfold exit_inv in Hs. destruct (exited (ex_master s)) as [code|] eqn:Hex; [done|].
    destruct Hs as (Hrej & Hnot & Hnone).
    destruct (exit_waiting _ Hrej Hnot Hnone) as (i & pc & Hi & Hw).
    exists (exit_resume i Resolved s). by econstructor.
Qed.

End ExitHandler.

Lemma exit_handler_always_exits_witness :
  ∃ s', exit_step (exit_begin Examples.one_worker) s'.
Proof.
  destruct (exit_handler_always_exits Examples.one_worker one_worker_wf)
    as (_ & _ & Hrun).
  - vm_compute. reflexivity.
  - specialize (Hrun (exit_begin Examples.one_worker) (rtc_refl _ _)).
    assert (exited (ex_master (exit_begin Examples.one_worker)) = None) as Hex
      by (vm_compute; reflexivity).
    rewrite Hex in Hrun. exact Hrun.
Defined.

(** ** Connections opened by a lookup *)

Section Hygiene.
Import Discovery.
Context `{Collaborators}.




End Hygiene.

(** ** Socket paths, keys and the registry *)

Section KeyRoundTrip.
Import Discovery.
Context `{Collaborators}.

(** X3. Where a derived socket path is used as it is, the socket file
    [getSocketPath] derives from a plain key has that key as the key
    [getSocketFiles] reads off it: when the glob lists the file,
    [getSocketFiles] lists it under the key it was derived from, and two
    plain keys with the same socket path are the same key. *)
Theorem socket_key_round_trip (k : string) (w : World) :
  (∀ p, ensureLocalDomainPath p = p) →
  getKey (VStr k) = k →
  plain_name k = true →
  basename (getSocketPath (VStr k)) ".sock" = k
  ∧ (getSocketPath (VStr k) ∈ globbed w →
       mkSocketRef (getSocketPath (VStr k)) k ∈ getSocketFiles w)
  ∧ ∀ k', getKey (VStr k') = k' → plain_name k' = true →
      getSocketPath (VStr k') = getSocketPath (VStr k) → k' = k.
Proof.
  intros Hid Hk Hplain.
  pose proof (getSocketPath_key k Hid Hk Hplain) as Hbase.
  split; [done|]. split.
  - intros Hin. apply getSocketFiles_spec. by split.
  - intros k' Hk' Hplain' Heq.
    rewrite <- Hbase, <- Heq. symmetry. by apply getSocketPath_key.
Qed.

End KeyRoundTrip.

Lemma socket_key_round_trip_witness :
  Discovery.basename (@getSocketPath Examples.posix (VStr "app")) ".sock" = "app".
Proof.
  destruct (@socket_key_round_trip Examples.posix "app" Examples.world) as (Hbase & _).
  - intros p. reflexivity.
  - reflexivity.
  - reflexivity.
  - exact Hbase.
Defined.

Section Registry.
Context `{Collaborators}.

Lemma StronglySorted_sublist {A} (R : relation A) (l1 l2 : list A) :
  l1 `sublist_of` l2 → StronglySorted R l2 → StronglySorted R l1.
Proof.
  induction 1 as [|x l1 l2 Hsub IH|x l1 l2 Hsub IH]; intros Hs; [done| |].
  - apply StronglySorted_inv in Hs as [Hs Hall]. constructor; [by apply IH|].
    apply Forall_forall. intros y Hy.
    apply (proj1 (Forall_forall _ _) Hall). by eapply sublist_subseteq.
  - apply StronglySorted_inv in Hs as [Hs _]. by apply IH.
Qed.

(** Taking one worker out of [workerMonitors], wherever it stands, keeps the
    rest in ascending order. *)
Lemma wf_delete (m m' : Master) (i : nat) :
  wf_master m →
  workerMonitors m' = delete i (workerMonitors m) →
  (∀ r, inum m' r = inum m r) →
  wf_master m'.
Proof.
  intros [Hasc Hass] Hl Hnum. split.
  - unfold ascending. rewrite Hl.
    rewrite (numbers_frame m m') by (intros r _; apply Hnum).
    eapply StronglySorted_sublist; [|exact Hasc].
    change (map ?f ?l) with (f <$> l). apply fmap_sublist, sublist_delete.
  - intros r Hr. rewrite Hnum. apply Hass. rewrite Hl in Hr.
    by eapply (sublist_subseteq _ _ (sublist_delete _ i)).
Qed.

Lemma shut_step_wf (o : Outcome) (pc : ShutPc) (m : Master) :
  wf_master m → wf_master (fst (shut_step o pc m)).
Proof.
  intros Hwf. destruct pc as [r|sp pf| | |e0|]; destruct o as [|err]; simpl; try done.
  - eapply (wf_delete m); [done | reflexivity |].
    intros r'.
    change (inum (modify_worker r (λ w, fst (WorkerLifecycle.stop w)) m) r' = inum m r').
    by apply inum_modify_keep.
  - destruct (removePidFile_frame pf m) as (Hl & Hh & _).
    destruct (removeDomainSocket_frame sp (removePidFile pf m)) as (Hl2 & Hh2 & _).
    assert (wf_master (removePidFile pf m)) as Hwf1.
    { eapply wf_frame; [exact Hl | | exact Hwf]. intros r _. unfold inum. by rewrite Hh. }
    destruct (length (workerMonitors (removePidFile pf m)) =? 0)%nat; [|done].
    assert (wf_master (removeDomainSocket sp (removePidFile pf m))) as Hwf2.
    { eapply wf_frame; [exact Hl2 | | exact Hwf1]. intros r _. unfold inum. by rewrite Hh2. }
    by destruct (socket _).
Qed.

Lemma state_wf (newState : Value) (m : Master) :
  wf_master m → wf_master (fst (state newState m)).
Proof.
  intros Hwf. destruct (state_spec newState m) as (_ & Hl & Hh).
  eapply wf_frame; [exact Hl | | exact Hwf].
  intros r Hr. unfold inum. rewrite Hh.
  destruct (truthy newState && bool_decide (r ∈ workerMonitors m)); [|done].
  by destruct (heap m !! r).
Qed.

(** X4. [workerMonitors] stays strictly ascending by instance number, every
    registered worker holding a number of its own: at every point of every
    [spawn] call, across every step of a [shutDown] call (also one that
    finds its worker already unregistered), and across [state]. *)
Theorem registry_stays_ascending (m : Master) :
  wf_master m →
  NoDup (map (inumZ m) (workerMonitors m))
  ∧ (∀ options bind s0 s,
       store_ok m → spawn_begin options bind m = inr s0 → rtc spawn_step s0 s →
       wf_master (sp_master s))
  ∧ (∀ o pc, wf_master (fst (shut_step o pc m)))
  ∧ (∀ newState, wf_master (fst (state newState m))).
Proof.
  intros Hwf. split; [|split; [|split]].
  - apply StronglySorted_lt_NoDup, Hwf.
  - intros options bind s0 s Hstore Hbegin Hrun.
    pose proof (spawn_begin_inv _ _ _ _ Hwf Hstore Hbegin) as Hinv.
    by destruct (spawn_run_inv _ _ Hinv Hrun) as [Hw _].
  - intros o pc. by apply shut_step_wf.
  - intros newState. by apply state_wf.
Qed.

End Registry.

Lemma registry_stays_ascending_witness :
  NoDup (map (inumZ Examples.two_workers) (workerMonitors Examples.two_workers)).
Proof.
  destruct (@registry_stays_ascending Examples.posix Examples.two_workers two_workers_wf)
    as (Hnd & _).
  exact Hnd.
Defined.

(** ** Overlapping calls and the reach of state *)

Section Overlap.

Lemma splice1_last {A} (l : list A) : splice1 (-1) l = removelast l.
Proof.
  unfold splice1. change (-1 <? 0) with true. cbv iota.
  destruct l as [|x l]; [done|].
  replace (Z.to_nat (Z.max (Z.of_nat (length (x :: l)) + -1) 0)) with (length l)
    by (simpl; lia).
  rewrite delete_take_drop. rewrite removelast_firstn_len.
  replace (drop (S (length l)) (x :: l)) with (@nil A)
    by (symmetry; apply drop_ge; simpl; lia).
  by rewrite app_nil_r.
Qed.

(** X5. Two [shutDown] calls for the same instance that both found the
    worker before either unregistered it: when the [stop()] of the first
    has resolved the worker is taken out of [workerMonitors]; when the
    [stop()] of the second resolves, [indexOf] no longer finds the worker
    and [splice(-1, 1)] takes out the last registered worker instead,
    another worker, whose object is left as it was. *)
Theorem overlapping_shutDown_unregisters_the_last_worker (m : Master) (r : nat) :
  wf_master m → r ∈ workerMonitors m →
  let m1 := fst (shut_step Resolved (SStop r) m) in
  let m2 := fst (shut_step Resolved (SStop r) m1) in
  (∀ n, inum m r = Some n → shutDown_one (VNum n) m = (m, SStop r))
  ∧ workerMonitors m1 = List.filter (λ y, negb (Nat.eqb y r)) (workerMonitors m)
  ∧ workerMonitors m2 = removelast (workerMonitors m1)
  ∧ ∀ r', last (workerMonitors m1) = Some r' →
      r' ≠ r ∧ r' ∈ workerMonitors m ∧ (r' ∉ workerMonitors m2)
      ∧ heap m2 !! r' = heap m !! r'.
Proof.
  intros Hwf Hr m1 m2.
  pose proof (ascending_NoDup m (proj1 Hwf)) as Hnd.
  destruct (shut_step_stop m r Hnd Hr) as (m1' & sp & pf & Heq & _ & _ & Hl & Hnum & _).
  assert (m1 = m1') as Hm1 by (subst m1; by rewrite Heq).
  assert (r ∉ workerMonitors m1) as Hgone.
  { rewrite Hm1, Hl. intros Hin%list_elem_of_In%filter_In. destruct Hin as [_ Hne].
    by rewrite Nat.eqb_refl in Hne. }
  assert (NoDup (workerMonitors m1)) as Hnd1.
  { rewrite Hm1, Hl. apply NoDup_ListNoDup, List.NoDup_filter, NoDup_ListNoDup, Hnd. }
  assert (workerMonitors m2 = removelast (workerMonitors m1)) as Hl2.
  { subst m2. simpl. rewrite indexOf_not_elem by done. apply splice1_last. }
  split; [|split; [by rewrite Hm1|split; [done|]]].
  - intros n Hn. unfold shutDown_one.
    pose proof (find_worker_own m r Hwf Hr) as Hown.
    unfold inum_value in Hown. rewrite Hn in Hown. by rewrite Hown.
  - intros r' Hlast.
    assert (r' ∈ workerMonitors m1) as Hin1.
    { apply last_Some in Hlast as [l' ->]. apply elem_of_app. right. by left. }
    assert (r' ≠ r) as Hne by (intros ->; done).
    split; [done|]. split.
    { rewrite Hm1, Hl in Hin1. by apply list_elem_of_In, filter_In in Hin1 as [?%list_elem_of_In _]. }
    split.
    + rewrite Hl2. apply last_Some in Hlast as [l' Hl'].
      rewrite Hl' in Hnd1 |- *. rewrite removelast_last.
      apply NoDup_app in Hnd1 as (_ & Hdisj & _). intros Hin. apply (Hdisj r' Hin). by left.
    + subst m2 m1. simpl. rewrite !lookup_alter_ne by done. done.
Qed.

End Overlap.

Lemma overlapping_shutDown_unregisters_the_last_worker_witness :
  workerMonitors (fst (shut_step Resolved (SStop 0)
                    (fst (shut_step Resolved (SStop 0) Examples.two_workers))))
  = removelast (workerMonitors (fst (shut_step Resolved (SStop 0) Examples.two_workers))).
Proof.
  destruct (overlapping_shutDown_unregisters_the_last_worker Examples.two_workers 0)
    as (_ & _ & Hlast & _).
  - exact two_workers_wf.
  - vm_compute. left.
  - exact Hlast.
Defined.

Section StateScope.



End StateScope.

(** ** Discovery on Windows *)

Section Windows.
Import Discovery.
Context `{Collaborators}.
Hypothesis Hwin : isWin = true.

Lemma removeDomainSocketFile_win (v : Value) (d : gset string) :
  removeDomainSocketFile v d = d.
Proof using Hwin. unfold removeDomainSocketFile. by rewrite Hwin. Qed.

Lemma probe_pid_disk_win (w : World) acc (p : PidRef) :
  disk (snd (probe_pid w acc p)) = disk (snd acc).
Proof using Hwin.
  unfold probe_pid, startClient.
  destruct (connect w _) as [s|code]; simpl; [done|].
  destruct (no_owner_code code); simpl; by rewrite ?removeDomainSocketFile_win.
Qed.

(** X7. On Windows discovery removes no file: [getAll] makes the PID
    records' pass only, returning the reference of every PID record whose
    derived path connects, and [getAll], [getByName] and [getByKey] leave
    the run directory as it was. *)
Theorem discovery_on_windows_removes_nothing (w : World) (c : Client) (v : Value) :
  fst (getAll w c) = omap (pid_ref w) (pidRecords w)
  ∧ disk (snd (getAll w c)) = disk c
  ∧ disk (snd (getByName v w c)) = disk c
  ∧ disk (snd (getByKey v w c)) = disk c.
Proof using Hwin.
  assert (disk (snd (getAll w c)) = disk c) as Hd.
  { unfold getAll. rewrite Hwin. rewrite foldl_disk_eq; [done|].
    intros acc p. apply probe_pid_disk_win. }
  split; [|split; [done|split]].
  - by rewrite getAll_refs, Hwin, app_nil_r.
  - by rewrite getByName_disk.
  - by rewrite getByKey_disk.
Qed.

End Windows.

Lemma discovery_on_windows_removes_nothing_witness :
  Discovery.disk (snd (@Discovery.getAll Examples.windows Examples.world Examples.client))
  = Discovery.disk Examples.client.
Proof.
  destruct (@discovery_on_windows_removes_nothing Examples.windows eq_refl
              Examples.world Examples.client VUndefined) as (_ & Hd & _).
  exact Hd.
Defined.
